(** * The Monkey interpreter: object model, environment, builtins and REPL

    A shallow embedding of the Go packages [object] (object.go,
    environment.go), [evaluator] (builtins.go) and [repl], followed by the
    properties established about them.

    Conventions of the embedding:
    - a Go [string] is a sequence of bytes, rendered as a Rocq [string]
      (a sequence of 8-bit [ascii] characters);
    - [int64] and [uint64] values are integers of [Z], conversions between
      them write out the wrap-around;
    - a value of the interface type [object.Object] is either [nil] or one
      of the ten concrete object kinds;
    - writing to a stream and panicking are effects, carried by the
      monad [Go]. *)

From Stdlib Require Import ZArith Lia List String Ascii Decimal DecimalString
  DecimalPos DecimalZ.
From stdpp Require Import gmap strings list fin_maps.

#[local] Set Warnings "-register-all".
Local Open Scope Z_scope.
Local Open Scope string_scope.

(** ** Effects: output written so far, and panics *)

(** The run-time errors that the modelled code can raise. *)
Inductive cause : Type :=
| IndexOutOfRange
| SliceBoundsOutOfRange
| MakeSliceLenOutOfRange
| NilDereference.

Inductive outcome (A : Type) : Type :=
| Returns (a : A)
| Panics (why : cause).
Arguments Returns {A} a.
Arguments Panics {A} why.

(** A computation receives the chunks written to the output stream so far
    (one entry per write call, oldest first) and gives back its outcome
    with the chunks written when it stopped. *)
Definition Go (A : Type) : Type := list string -> outcome A * list string.

#[global] Instance Go_ret : MRet Go := fun A a out => (Returns a, out).

#[global] Instance Go_bind : MBind Go := fun A B f m out =>
  match m out with
  | (Returns a, out') => f a out'
  | (Panics why, out') => (Panics why, out')
  end.

Definition panic {A : Type} (why : cause) : Go A := fun out => (Panics why, out).

Definition write (s : string) : Go unit := fun out => (Returns tt, (out ++ [s])%list).

(** A method call through an interface value: [None] stands for the call on
    a nil receiver, which panics. *)
Definition call {A : Type} (r : option A) : Go A :=
  match r with
  | Some a => mret a
  | None => panic NilDereference
  end.

(** ** Fixed-width integers *)

Definition int64_range (z : Z) : Prop := - 2 ^ 63 <= z < 2 ^ 63.

(** The conversion [uint64(x)] of an [int64]. *)
Definition uint64 (z : Z) : Z := z mod 2 ^ 64.

(** The conversion [int64(x)] of an [int] (a 64-bit two's complement
    integer). *)
Definition int64 (z : Z) : Z := (z + 2 ^ 63) mod 2 ^ 64 - 2 ^ 63.

(** ** Slices

    The builtin [len] on a slice and on a string, indexing, [make], the
    slice expression [s[low:]], [copy] and the assignment to an element.
    Lengths and indices are Go [int]s; an index out of range panics. *)

Definition len {A : Type} (s : list A) : Z := Z.of_nat (length s).

Definition len_string (s : string) : Z := Z.of_nat (String.length s).

Definition index {A : Type} (s : list A) (i : Z) : Go A :=
  if bool_decide (0 <= i) then
    match s !! Z.to_nat i with
    | Some x => mret x
    | None => panic IndexOutOfRange
    end
  else panic IndexOutOfRange.

Definition make {A : Type} (zero : A) (n : Z) : Go (list A) :=
  if bool_decide (0 <= n) then mret (replicate (Z.to_nat n) zero)
  else panic MakeSliceLenOutOfRange.

Definition slice_from {A : Type} (s : list A) (low : Z) : Go (list A) :=
  if bool_decide (0 <= low <= len s)
  then mret (drop (Z.to_nat low) s)
  else panic SliceBoundsOutOfRange.

(** [copy(dst, src)] overwrites the first [min(len(dst), len(src))] elements
    of [dst]; the contents of [dst] afterwards. *)
Definition copy {A : Type} (dst src : list A) : list A :=
  (take (length dst) src ++ drop (length src) dst)%list.

Definition set_index {A : Type} (s : list A) (i : Z) (v : A) : Go (list A) :=
  if bool_decide (0 <= i < len s)
  then mret (<[Z.to_nat i := v]> s)
  else panic IndexOutOfRange.

(** ** Text helpers of the Go standard library *)

(** [strings.Join]. *)
Fixpoint Join (elems : list string) (sep : string) : string :=
  match elems with
  | [] => EmptyString
  | [s] => s
  | s :: rest => s ++ sep ++ Join rest sep
  end.

(** The verbs [%d] and [%t] of [fmt.Sprintf]. *)
Definition fmt_d (z : Z) : string := NilZero.string_of_int (Z.to_int z).
Definition fmt_t (b : bool) : string := if b then "true" else "false".

Definition newline : string := String.String "010" EmptyString.
Definition tab : string := String.String "009" EmptyString.

(** The value of a byte of a string. *)
Definition byte_val (c : ascii) : Z := Z.of_N (N_of_ascii c).

(** [hash/fnv], 64-bit FNV-1a: [New64a] starts at [offset64], [Write]
    folds every byte in by xor followed by a multiplication modulo 2^64,
    [Sum64] reads the state. *)
Module fnv.

Definition offset64 : Z := 14695981039346656037.
Definition prime64 : Z := 1099511628211.

Definition New64a : Z := offset64.

Fixpoint Write (hash : Z) (data : string) : Z :=
  match data with
  | EmptyString => hash
  | String.String c rest =>
      Write (uint64 (Z.lxor hash (byte_val c) * prime64)) rest
  end.

Definition Sum64 (hash : Z) : Z := hash.

End fnv.

(** ** Package object *)

Module object.

Definition ObjectType : Type := string.

Definition INTEGER_OBJ : ObjectType := "INTEGER".
Definition BOOLEAN_OBJ : ObjectType := "BOOLEAN".
Definition NULL_OBJ : ObjectType := "NULL".
Definition RETURN_VALUE_OBJ : ObjectType := "RETURN_VALUE".
Definition ERROR_OBJ : ObjectType := "ERROR".
Definition FUNCTION_OBJ : ObjectType := "FUNCTION".
Definition STRING_OBJ : ObjectType := "STRING".
Definition BUILTIN_OBJ : ObjectType := "BUILTIN".
Definition ARRAY_OBJ : ObjectType := "ARRAY".
Definition HASH_OBJ : ObjectType := "HASH".

(** Modelled from the spec: the package ast is not among the sources. The
    object model only ever calls [String()] on an [ast.Identifier] and on
    an [ast.BlockStatement], so a node is represented by the text that
    method renders (the parameter name, the body source). *)
Record Identifier : Type := { Identifier_String : string }.
Record BlockStatement : Type := { BlockStatement_String : string }.

Record HashKey : Type := { Type' : ObjectType; Value : Z }.

(** The interface type [Object]: nil, or a value of one of the concrete
    kinds. A [Function] refers to its environment by address, a [Builtin]
    to its native code by the name it is registered under; the pairs of a
    [Hash] are listed in the order in which [range] visits the map. *)
Inductive Object : Type :=
| nil_Object
| Integer (Value : Z)
| Boolean (Value : bool)
| Null
| ReturnValue (Value : Object)
| Function (Parameters : list Identifier) (Body : BlockStatement)
    (Env : positive)
| Error (Message : string)
| String (Value : string)
| Builtin (Fn : string)
| Array (Elements : list Object)
| Hash (Pairs : list (HashKey * (Object * Object))).

(** The method [Type]; nil has no method to call. *)
Definition Object_Type (o : Object) : option ObjectType :=
  match o with
  | nil_Object => None
  | Integer _ => Some INTEGER_OBJ
  | Boolean _ => Some BOOLEAN_OBJ
  | Null => Some NULL_OBJ
  | ReturnValue _ => Some RETURN_VALUE_OBJ
  | Function _ _ _ => Some FUNCTION_OBJ
  | Error _ => Some ERROR_OBJ
  | String _ => Some STRING_OBJ
  | Builtin _ => Some BUILTIN_OBJ
  | Array _ => Some ARRAY_OBJ
  | Hash _ => Some HASH_OBJ
  end.

(** *** Hash keys *)

Definition Boolean_HashKey (b : bool) : HashKey :=
  let value := if b then 1 else 0 in
  {| Type' := BOOLEAN_OBJ; Value := value |}.

Definition Integer_HashKey (i : Z) : HashKey :=
  {| Type' := INTEGER_OBJ; Value := uint64 i |}.

Definition String_HashKey (s : string) : HashKey :=
  let h := fnv.New64a in
  let h := fnv.Write h s in
  {| Type' := STRING_OBJ; Value := fnv.Sum64 h |}.

(** The interface [Hashable]: only the three kinds above implement it. *)
Definition Hashable_HashKey (o : Object) : option HashKey :=
  match o with
  | Boolean b => Some (Boolean_HashKey b)
  | Integer i => Some (Integer_HashKey i)
  | String s => Some (String_HashKey s)
  | _ => None
  end.

(** *** Environments *)

Record Environment : Type := { store : gmap string Object }.

Definition NewEnvironment : Environment := {| store := ∅ |}.

(** [o, ok := e.store[name]]: a missing key reads as the zero value nil. *)
Definition Environment_Get (e : Environment) (name : string) : Object * bool :=
  match store e !! name with
  | Some o => (o, true)
  | None => (nil_Object, false)
  end.

(** [e.store[name] = val] updates the map the receiver points to; the
    environment after the call is returned next to the result. *)
Definition Environment_Set (e : Environment) (name : string) (val : Object)
  : Object * Environment :=
  (val, {| store := <[name := val]> (store e) |}).

(** *** Textual representation *)

Section Inspect.

(** [fmt.Sprintf("%v", o)] of an interface value prints the addresses of
    the pointers it reaches, which this model does not hold; the rendering
    is left open. It is never a panic, nil included. *)
Variable Sprintf_v : Object -> string.

Fixpoint Object_Inspect (o : Object) : option string :=
  match o with
  | nil_Object => None
  | Integer i => Some (fmt_d i)
  | Boolean b => Some (fmt_t b)
  | Null => Some "null"
  | ReturnValue v => Some (Sprintf_v v)
  | Function Parameters Body _ =>
      let params := map Identifier_String Parameters in
      Some ("fn" ++ "(" ++ Join params ", " ++ ") {" ++ newline
            ++ BlockStatement_String Body ++ newline ++ "}")
  | Error Message => Some ("ERROR: " ++ Message)
  | String s => Some s
  | Builtin _ => Some "builtin function"
  | Array Elements =>
      match
        (fix range (l : list Object) : option (list string) :=
           match l with
           | [] => Some []
           | entry :: l' =>
               match Object_Inspect entry with
               | Some s => option_map (cons s) (range l')
               | None => None
               end
           end) Elements
      with
      | Some elStrings => Some ("[" ++ Join elStrings ", " ++ "]")
      | None => None
      end
  | Hash Pairs =>
      match
        (fix range (l : list (HashKey * (Object * Object)))
           : option (list string) :=
           match l with
           | [] => Some []
           | (_, (k, v)) :: l' =>
               match Object_Inspect k, Object_Inspect v with
               | Some ks, Some vs =>
                   option_map (cons (ks ++ ": " ++ vs)) (range l')
               | _, _ => None
               end
           end) Pairs
      with
      | Some pairs => Some ("{" ++ Join pairs ", " ++ "}")
      | None => None
      end
  end.

End Inspect.

(** An object all of whose methods can be called: it is not nil, and
    neither is any element of an array or any key or value of a hash that
    it reaches. *)
Fixpoint defined (o : Object) : bool :=
  match o with
  | nil_Object => false
  | Array Elements => forallb defined Elements
  | Hash Pairs =>
      forallb (fun p => defined (fst (snd p)) && defined (snd (snd p))) Pairs
  | _ => true
  end.

Definition BuiltInFunction : Type := list Object -> Go Object.

(** *** Induction on objects, through arrays and hashes *)

Section Object_nested_ind.

Variable P : Object -> Prop.

Hypothesis P_nil : P nil_Object.
Hypothesis P_Integer : forall i, P (Integer i).
Hypothesis P_Boolean : forall b, P (Boolean b).
Hypothesis P_Null : P Null.
Hypothesis P_ReturnValue : forall v, P v -> P (ReturnValue v).
Hypothesis P_Function : forall ps b e, P (Function ps b e).
Hypothesis P_Error : forall m, P (Error m).
Hypothesis P_String : forall s, P (String s).
Hypothesis P_Builtin : forall f, P (Builtin f).
Hypothesis P_Array : forall els, Forall P els -> P (Array els).
Hypothesis P_Hash :
  forall pairs,
    Forall (fun p => P (fst (snd p)) /\ P (snd (snd p))) pairs ->
    P (Hash pairs).

Fixpoint Object_nested_ind (o : Object) : P o :=
  match o with
  | nil_Object => P_nil
  | Integer i => P_Integer i
  | Boolean b => P_Boolean b
  | Null => P_Null
  | ReturnValue v => P_ReturnValue v (Object_nested_ind v)
  | Function ps b e => P_Function ps b e
  | Error m => P_Error m
  | String s => P_String s
  | Builtin f => P_Builtin f
  | Array els =>
      P_Array els
        ((fix all (l : list Object) : Forall P l :=
            match l with
            | [] => @List.Forall_nil _ P
            | x :: l' =>
                @List.Forall_cons _ P x l' (Object_nested_ind x) (all l')
            end) els)
  | Hash pairs =>
      P_Hash pairs
        ((fix all (l : list (HashKey * (Object * Object)))
            : Forall (fun p => P (fst (snd p)) /\ P (snd (snd p))) l :=
            match l with
            | [] => @List.Forall_nil _ _
            | (hk, (k, v)) :: l' =>
                @List.Forall_cons _
                  (fun p => P (fst (snd p)) /\ P (snd (snd p)))
                  (hk, (k, v)) l'
                  (conj (Object_nested_ind k) (Object_nested_ind v))
                  (all l')
            end) pairs)
  end.

End Object_nested_ind.

End object.

(** ** Package evaluator: the builtin functions *)

Module evaluator.

Import object.

(** Modelled from the spec: evaluator.go is not among the sources. [NULL] is
    the canonical shared Null instance, and [newError] wraps the text that
    [fmt.Sprintf] makes of its format and arguments in an Error object;
    the text is built at each place of call below. *)
Definition NULL : Object := Null.
Definition newError (message : string) : Object := Error message.

Section Builtins.

Variable Sprintf_v : Object -> string.

(** [fmt.Println(s)]. *)
Definition Println (s : string) : Go unit := write (s ++ newline).

(** The loop [for _, arg := range args] of [puts]. *)
Fixpoint puts_range (args : list Object) : Go unit :=
  match args with
  | [] => mret tt
  | arg :: args' =>
      s ← call (Object_Inspect Sprintf_v arg);
      _ ← Println s;
      puts_range args'
  end.

Definition builtin_puts : BuiltInFunction := fun args =>
  _ ← puts_range args;
  mret NULL.

Definition builtin_len : BuiltInFunction := fun args =>
  if bool_decide (len args ≠ 1) then
    mret (newError ("wrong number of arguments. got=" ++ fmt_d (len args)
                    ++ ", want=1"))
  else
    arg ← index args 0;
    match arg with
    | String Value => mret (Integer (int64 (len_string Value)))
    | Array Elements => mret (Integer (int64 (len Elements)))
    | _ =>
        t ← (index args 0 ≫= fun a => call (Object_Type a));
        mret (newError ("argument to `len` not supported, got " ++ t))
    end.

Definition builtin_first : BuiltInFunction := fun args =>
  if bool_decide (len args ≠ 1) then
    mret (newError ("wrong number of arguments. got=" ++ fmt_d (len args)
                    ++ ". want=1"))
  else
    arg ← index args 0;
    match arg with
    | Array Elements =>
        if bool_decide (len Elements = 0) then mret NULL
        else index Elements 0
    | _ =>
        t ← call (Object_Type arg);
        mret (newError ("argument to `first` must be ARRAY, got " ++ t))
    end.

Definition builtin_last : BuiltInFunction := fun args =>
  if bool_decide (len args ≠ 1) then
    mret (newError ("wrong number of arguments. got=" ++ fmt_d (len args)
                    ++ ". want=1"))
  else
    arg ← index args 0;
    match arg with
    | Array Elements =>
        if bool_decide (len Elements <= 0) then mret NULL
        else index Elements (len Elements - 1)
    | _ =>
        t ← call (Object_Type arg);
        mret (newError ("argument to `last` must be ARRAY, got " ++ t))
    end.

Definition builtin_rest : BuiltInFunction := fun args =>
  if bool_decide (len args ≠ 1) then
    mret (newError ("wrong number of arguments. got=" ++ fmt_d (len args)
                    ++ ". want=1"))
  else
    arg ← index args 0;
    match arg with
    | Array Elements =>
        let length := len Elements in
        if bool_decide (length <= 0) then mret NULL
        else
          newElements ← make nil_Object (length - 1);
          tail ← slice_from Elements 1;
          let newElements := copy newElements tail in
          mret (Array newElements)
    | _ =>
        t ← call (Object_Type arg);
        mret (newError ("argument to `rest` must be ARRAY, got " ++ t))
    end.

Definition builtin_push : BuiltInFunction := fun args =>
  if bool_decide (len args ≠ 2) then
    mret (newError ("wrong number of arguments. got=" ++ fmt_d (len args)
                    ++ ". want=2"))
  else
    arg ← index args 0;
    match arg with
    | Array Elements =>
        let length := len Elements in
        newElements ← make nil_Object (length + 1);
        let newElements := copy newElements Elements in
        x ← index args 1;
        newElements ← set_index newElements length x;
        mret (Array newElements)
    | _ =>
        t ← call (Object_Type arg);
        mret (newError ("argument to `push` must be ARRAY, got " ++ t))
    end.

(** The registered table, from name to the native function of the entry. *)
Definition builtins : gmap string BuiltInFunction :=
  {[ "puts" := builtin_puts;
     "len" := builtin_len;
     "first" := builtin_first;
     "last" := builtin_last;
     "rest" := builtin_rest;
     "push" := builtin_push ]}.

End Builtins.

End evaluator.


(** ** The memory behind a slice

    A slice value is a window on a backing array that lives in memory;
    [make] allocates a new backing array, [copy] and the assignment to an
    element write into the backing array of their destination. The cells
    hold interface values, which the code below moves without looking into
    them, so the type of the cells is left open. *)

Module memory.

Section Memory.

Context {V : Type}.
Variable zero : V.

Record slice : Type := { base : positive; off : nat; size : nat }.

Local Abbreviation heap := (gmap positive (list V)).

(** The elements seen through a slice. *)
Definition read (h : heap) (s : slice) : option (list V) :=
  match h !! base s with
  | Some cells =>
      if decide (off s + size s <= length cells)%nat
      then Some (take (size s) (drop (off s) cells))
      else None
  | None => None
  end.

(** Overwriting the cells under a slice. *)
Definition overwrite (h : heap) (s : slice) (vs : list V) : heap :=
  alter (fun cells =>
           take (off s) cells ++ vs ++ drop (off s + size s) cells)%list
        (base s) h.

Definition mem_make (h : heap) (n : nat) : slice * heap :=
  let p := fresh (dom h) in
  ({| base := p; off := 0; size := n |}, <[p := replicate n zero]> h).

Definition mem_copy (h : heap) (dst src : slice) : option heap :=
  match read h dst, read h src with
  | Some d, Some s => Some (overwrite h dst (copy d s))
  | _, _ => None
  end.

Definition mem_set_index (h : heap) (s : slice) (i : nat) (v : V)
  : option heap :=
  match read h s with
  | Some d =>
      if decide (i < size s)%nat then Some (overwrite h s (<[i := v]> d))
      else None
  | None => None
  end.

(** The array branch of the builtin [push] (builtins.go, lines 96 to 100),
    on the slice [Elements] of its first argument and its second argument
    [x]: the slice of the array returned and the memory afterwards. *)
Definition push_Elements (h : heap) (Elements : slice) (x : V)
  : option (slice * heap) :=
  let length := size Elements in
  let '(newElements, h) := mem_make h (length + 1) in
  match mem_copy h newElements Elements with
  | Some h =>
      match mem_set_index h newElements length x with
      | Some h => Some (newElements, h)
      | None => None
      end
  | None => None
  end.

(** The slice expression [s[low:]]: a window on the same backing array. *)
Definition mem_slice_from (s : slice) (low : nat) : option slice :=
  if decide (low <= size s)%nat
  then Some {| base := base s; off := off s + low; size := size s - low |}
  else None.

(** The array branch of the builtin [rest] (builtins.go, lines 76 to 82),
    on the slice [Elements] of its argument: the slice of the array
    returned, if one is ([None] stands for the result NULL), and the memory
    afterwards. *)
Definition rest_Elements (h : heap) (Elements : slice)
  : option (option slice * heap) :=
  let length := size Elements in
  if decide (length <= 0)%nat then Some (None, h)
  else
    let '(newElements, h) := mem_make h (length - 1) in
    match mem_slice_from Elements 1 with
    | Some tail =>
        match mem_copy h newElements tail with
        | Some h => Some (Some newElements, h)
        | None => None
        end
    | None => None
    end.

End Memory.

End memory.

(** ** UTF-8

    A Go string holds text as the UTF-8 encoding of its characters (Unicode
    code points): [utf8.EncodeRune], with the replacement character for a
    value that is no code point. *)

Module utf8.

Definition RuneError : Z := 65533.
Definition MaxRune : Z := 1114111.

Definition byte_of (z : Z) : ascii := ascii_of_N (Z.to_N (z mod 256)).

Definition EncodeRune3 (r : Z) : list ascii :=
  [ byte_of (Z.lor 224 (Z.shiftr r 12));
    byte_of (Z.lor 128 (Z.land (Z.shiftr r 6) 63));
    byte_of (Z.lor 128 (Z.land r 63)) ].

Definition EncodeRune (r : Z) : list ascii :=
  let i := r mod 2 ^ 32 in
  if bool_decide (i <= 127) then [ byte_of r ]
  else if bool_decide (i <= 2047) then
    [ byte_of (Z.lor 192 (Z.shiftr r 6));
      byte_of (Z.lor 128 (Z.land r 63)) ]
  else if bool_decide (i > MaxRune \/ 55296 <= i <= 57343) then
    EncodeRune3 RuneError
  else if bool_decide (i <= 65535) then EncodeRune3 r
  else
    [ byte_of (Z.lor 240 (Z.shiftr r 18));
      byte_of (Z.lor 128 (Z.land (Z.shiftr r 12) 63));
      byte_of (Z.lor 128 (Z.land (Z.shiftr r 6) 63));
      byte_of (Z.lor 128 (Z.land r 63)) ].

(** The Go string of a text given by its characters. *)
Definition encode (text : list Z) : string :=
  string_of_list_ascii (concat (map EncodeRune text)).

(** A character that takes more than one byte. *)
Definition multibyte (r : Z) : Prop := 127 < r mod 2 ^ 32.

End utf8.

(** ** Package repl *)

Module repl.

Import object.

Definition PROMPT : string := ">>".

Definition dq : string := String.String "034" EmptyString.

Definition MONKEY_FACE : string :=
  "            __,__" ++ newline ++
  "   .--.  .-" ++ dq ++ "     " ++ dq ++ "-.  .--." ++ newline ++
  "  / .. \/  .-. .-.  \/ .. \" ++ newline ++
  " | |  '|  /   Y   \  |'  | |" ++ newline ++
  " | \   \  \ 0 | 0 /  /   / |" ++ newline ++
  "  \ '- ,\.-" ++ dq ++ dq ++ dq ++ dq ++ dq ++ dq ++ dq ++ "-./, -' /" ++ newline ++
  "   ''-' /_   ^ ^   _\ '-''" ++ newline ++
  "       |  \._   _./  |" ++ newline ++
  "       \   \ '~' /   /" ++ newline ++
  "        '._ '-=-' _.'" ++ newline ++
  "           '-----'" ++ newline.

(** The loop [for _, err := range errors] of [printParserErrors]. *)
Fixpoint printParserErrors_range (errors : list string) : Go unit :=
  match errors with
  | [] => mret tt
  | err :: errors' =>
      _ ← write (tab ++ err ++ newline);
      printParserErrors_range errors'
  end.

Definition printParserErrors (errors : list string) : Go unit :=
  _ ← write MONKEY_FACE;
  _ ← write ("Whoos! We ran into some monkey business here!" ++ newline);
  _ ← write (" parser errors:" ++ newline);
  printParserErrors_range errors.

Section Start.

Variable Sprintf_v : Object -> string.

(** The packages lexer, parser and evaluator are not among the sources;
    [Start] is modelled over any lexer, parser and evaluator. A parser
    carries its own state: [ParseProgram] gives the program with the parser
    after the parse, whose accumulated error list [Errors] reads.
    [Eval] may write, may panic, and gives the environment as it leaves
    it next to its result. *)
Variables Lexer Parser Program : Type.
Variable lexer_New : string -> Lexer.
Variable parser_New : Lexer -> Parser.
Variable ParseProgram : Parser -> Program * Parser.
Variable Errors : Parser -> list string.
Variable Eval : Program -> Environment -> Go (Object * Environment).

(** The body of the [for] loop, over the lines that the scanner still has
    to deliver; when it has none, [Scan] fails and [Start] returns. The
    environment at that point is handed back for inspection. *)
Fixpoint loop (env : Environment) (lines : list string) : Go Environment :=
  _ ← write PROMPT;
  match lines with
  | [] => mret env
  | line :: lines' =>
      let l := lexer_New line in
      let p := parser_New l in
      let '(program, p) := ParseProgram p in
      if bool_decide (len (Errors p) ≠ 0) then
        _ ← printParserErrors (Errors p);
        loop env lines'
      else
        '(evaluated, env) ← Eval program env;
        _ ← match evaluated with
            | nil_Object => mret tt
            | _ =>
                s ← call (Object_Inspect Sprintf_v evaluated);
                _ ← write s;
                write newline
            end;
        loop env lines'
  end.

Definition Start (lines : list string) : Go Environment :=
  let env := NewEnvironment in
  loop env lines.

End Start.

End repl.

(** ** Notions of the specification *)

Module spec.

Import object.

(** The chained environment of the specification: an accessor [outer] is a
    component of the environments when every store can be held together
    with every optional enclosing environment. *)
Definition holds_outer (outer : Environment -> option Environment) : Prop :=
  forall (s : gmap string Object) (o : option Environment),
    exists e, store e = s /\ outer e = o.

(** The lookup of the specification: the local store first, then outward
    through the chain, not found only when the chain is exhausted. *)
Inductive walks (outer : Environment -> option Environment)
  : Environment -> string -> Object * bool -> Prop :=
| walks_local e name o :
    store e !! name = Some o -> walks outer e name (o, true)
| walks_outward e e' name r :
    store e !! name = None -> outer e = Some e' ->
    walks outer e' name r -> walks outer e name r
| walks_exhausted e name :
    store e !! name = None -> outer e = None ->
    walks outer e name (nil_Object, false).

(** The environment after a sequence of [Set] calls. *)
Definition Set_all (e : Environment) (binds : list (string * Object))
  : Environment :=
  fold_left (fun e b => snd (Environment_Set e (fst b) (snd b))) binds e.

(** The value of the last binding of [name] in a sequence of bindings. *)
Fixpoint last_bound (binds : list (string * Object)) (name : string)
  : option Object :=
  match binds with
  | [] => None
  | (n, v) :: rest =>
      match last_bound rest name with
      | Some o => Some o
      | None => if decide (n = name) then Some v else None
      end
  end.

(** Two hashable objects of the same type and the same value. *)
Definition semantically_equal (a b : Object) : Prop :=
  match a, b with
  | Integer x, Integer y => x = y
  | Boolean x, Boolean y => x = y
  | String x, String y => x = y
  | _, _ => False
  end.

(** The number of arguments a builtin asks for ([puts] takes any number),
    and the kinds of first argument it works on, as its error messages
    name them. *)
Definition wants (name : string) : option Z :=
  if decide (name = "puts") then None
  else if decide (name = "push") then Some 2
  else Some 1.

Definition supports (name : string) (a : Object) : bool :=
  if decide (name = "puts") then true
  else
    match a with
    | Array _ => true
    | String _ => bool_decide (name = "len")
    | _ => false
    end.

(** What is asked of the call of a builtin: it returns an object, which is
    an Error when the number of arguments or the kind of the first
    argument is not what the builtin works on. *)
Definition returns_an_Object (name : string) (fn : BuiltInFunction)
  (args : list Object) (out : list string) : Prop :=
  exists (o : Object) (out' : list string),
    fn args out = (Returns o, out') /\ defined o = true /\
    (forall n, wants name = Some n -> len args ≠ n ->
       exists m, o = Error m) /\
    (forall a, head args = Some a -> supports name a = false ->
       exists m, o = Error m).

(** The only panic left to a builtin is the call of a method on nil. *)
Definition panics_on_nil_only (fn : BuiltInFunction)
  (args : list Object) (out : list string) : Prop :=
  forall (why : cause) (out' : list string),
    fn args out = (Panics why, out') -> why = NilDereference.

(** An Integer (holding an [int64]) or a Boolean. *)
Definition Integer_or_Boolean (o : Object) : Prop :=
  match o with
  | Integer i => int64_range i
  | Boolean _ => True
  | _ => False
  end.

(** *** A session of the REPL, as the specification describes it *)

Section Session.

Variable Sprintf_v : Object -> string.
Variables Lexer Parser Program : Type.
Variable lexer_New : string -> Lexer.
Variable parser_New : Lexer -> Parser.
Variable ParseProgram : Parser -> Program * Parser.
Variable Errors : Parser -> list string.
Variable Eval : Program -> Environment -> Go (Object * Environment).

(** What is printed for a non-empty list of parser errors: the banner, then
    every error on a line of its own. *)
Definition report (errors : list string) : list string :=
  [ repl.MONKEY_FACE;
    "Whoos! We ran into some monkey business here!" ++ newline;
    " parser errors:" ++ newline ]
  ++ map (fun err => tab ++ err ++ newline) errors.

(** What is printed for the result of an evaluation: nothing when the
    result is absent, else its [Inspect] text and a newline. *)
Definition shown (evaluated : Object) : Go unit :=
  match evaluated with
  | nil_Object => mret tt
  | _ =>
      match Object_Inspect Sprintf_v evaluated with
      | Some text => fun out => (Returns tt, (out ++ [text; newline])%list)
      | None => panic NilDereference
      end
  end.

(** One line: a parser of its own over a lexer of its own; with parser
    errors they are all printed and nothing is evaluated, the environment
    stays as it is; without, the program is evaluated against the
    environment of the session, which goes on as the evaluation leaves
    it. *)
Definition line_step (env : Environment) (line : string) : Go Environment :=
  let '(program, p) := ParseProgram (parser_New (lexer_New line)) in
  match Errors p with
  | [] =>
      '(evaluated, env') ← Eval program env;
      _ ← shown evaluated;
      mret env'
  | errors => fun out => (Returns env, (out ++ report errors)%list)
  end.

(** A session: one environment, created at the start, handed from line to
    line; a prompt before every line and a last one at the end of the
    input. *)
Definition session (lines : list string) : Go Environment :=
  env ← fold_left
          (fun (before : Go Environment) (line : string) =>
             env ← before;
             _ ← write repl.PROMPT;
             line_step env line)
          lines (mret NewEnvironment);
  _ ← write repl.PROMPT;
  mret env.

End Session.

End spec.

(** * Properties *)

Import object evaluator spec.

(** ** Environments *)

Lemma Get_Set_eq e n v :
  Environment_Get (snd (Environment_Set e n v)) n = (v, true).
Proof.
  unfold Environment_Get, Environment_Set; simpl.
  by rewrite lookup_insert_eq.
Qed.

Lemma Get_Set_ne e n m v :
  m ≠ n ->
  Environment_Get (snd (Environment_Set e n v)) m = Environment_Get e m.
Proof.
  intros Hne. unfold Environment_Get, Environment_Set; simpl.
  rewrite lookup_insert_ne; [done | congruence].
Qed.

Lemma Get_found e name :
  snd (Environment_Get e name) = true <-> is_Some (store e !! name).
Proof.
  unfold Environment_Get. destruct (store e !! name) as [o|]; simpl.
  - split; eauto.
  - split; [discriminate | intros [? ?]; discriminate].
Qed.

Lemma Get_Set_all e binds name :
  Environment_Get (Set_all e binds) name =
  match last_bound binds name with
  | Some v => (v, true)
  | None => Environment_Get e name
  end.
Proof.
  revert e. induction binds as [|[n v] rest IH]; intros e; simpl; [done|].
  unfold Set_all in *; simpl. rewrite IH.
  destruct (last_bound rest name) as [o|]; [done|].
  destruct (decide (n = name)) as [->|Hne].
  - apply Get_Set_eq.
  - apply Get_Set_ne. congruence.
Qed.

(** C1, as the code has it: an Environment holds a local store and nothing
    else, and [Get] answers from that store alone. It reports found exactly
    for the names bound in the store, and on an environment made by
    [NewEnvironment] and any sequence of [Set] calls it returns the value
    of the last [Set] of the name, or (nil, false) when the name was never
    set. *)
Theorem Get_reads_local_store :
  forall (e : Environment) (binds : list (string * Object)) (name : string),
    (snd (Environment_Get e name) = true <-> is_Some (store e !! name)) /\
    (snd (Environment_Get e name) = false <->
       Environment_Get e name = (nil_Object, false)) /\
    Environment_Get (Set_all NewEnvironment binds) name =
      match last_bound binds name with
      | Some v => (v, true)
      | None => (nil_Object, false)
      end.
Proof.
  intros e binds name. split; [apply Get_found|]. split.
  - unfold Environment_Get. destruct (store e !! name); simpl.
    + split; intros; discriminate.
    + split; done.
  - rewrite Get_Set_all. destruct (last_bound binds name); [done|].
    unfold Environment_Get, NewEnvironment; simpl. by rewrite lookup_empty.
Qed.

(** C1, as the claim states it, fails: no accessor makes the environments
    of the code hold an enclosing environment through which [Get] walks.
    An environment with an empty store enclosed by one that binds x would
    have to find x, and [Get] reports it not found. *)
Lemma Get_does_not_walk_outward :
  ~ exists outer : Environment -> option Environment,
      holds_outer outer /\
      forall e name, walks outer e name (Environment_Get e name).
Proof.
  intros (outer & Hholds & Hwalk).
  destruct (Hholds {[ "x" := Integer 1 ]} None) as (e1 & Hs1 & Ho1).
  destruct (Hholds ∅ (Some e1)) as (e0 & Hs0 & Ho0).
  pose proof (Hwalk e0 "x") as H0.
  assert (Hget : Environment_Get e0 "x" = (nil_Object, false)).
  { unfold Environment_Get. by rewrite Hs0, lookup_empty. }
  rewrite Hget in H0.
  inversion H0 as [| ? e' ? ? _ Hout H1 | ? ? _ Hout]; subst.
  - rewrite Ho0 in Hout. injection Hout as <-.
    inversion H1 as [| ? ? ? ? Hnone | ? ? Hnone]; subst;
      rewrite Hs1, lookup_singleton_eq in Hnone; discriminate.
  - rewrite Ho0 in Hout. discriminate.
Qed.

(** C7: [Set] returns the value it was given, a [Get] of the same name on
    the environment afterwards returns that value as found, whether or not
    the name was bound before, and the only thing written is the entry of
    that name in the store of the environment. *)
Theorem Set_then_Get :
  forall (e : Environment) (n : string) (v : Object),
    fst (Environment_Set e n v) = v /\
    Environment_Get (snd (Environment_Set e n v)) n = (v, true) /\
    store (snd (Environment_Set e n v)) = <[n := v]> (store e).
Proof.
  intros e n v. split; [done|]. split; [apply Get_Set_eq | done].
Qed.

(** C9: [Set] of a name leaves the binding of every other name as it was. *)
Theorem Set_frame :
  forall (e : Environment) (n m : string) (v : Object),
    m ≠ n ->
    Environment_Get (snd (Environment_Set e n v)) m = Environment_Get e m.
Proof. intros e n m v. apply Get_Set_ne. Qed.

Lemma Set_frame_witness :
  "b" ≠ "a" /\
  Environment_Get (snd (Environment_Set NewEnvironment "a" (Integer 1))) "b"
  = Environment_Get NewEnvironment "b".
Proof.
  split; [discriminate|].
  apply (Set_frame NewEnvironment "a" "b" (Integer 1)). discriminate.
Defined.

(** ** Hash keys *)

Lemma uint64_range z : 0 <= uint64 z < 2 ^ 64.
Proof. unfold uint64. apply Z.mod_pos_bound. lia. Qed.

Lemma uint64_inj i j :
  int64_range i -> int64_range j -> uint64 i = uint64 j -> i = j.
Proof.
  unfold int64_range, uint64.
  change (2 ^ 63) with 9223372036854775808.
  change (2 ^ 64) with 18446744073709551616.
  intros Hi Hj Heq. Z.div_mod_to_equations. lia.
Qed.

Lemma fnv_Write_range data : forall hash,
  0 <= hash < 2 ^ 64 -> 0 <= fnv.Write hash data < 2 ^ 64.
Proof.
  induction data as [|c rest IH]; intros hash Hh; simpl; [done|].
  apply IH, uint64_range.
Qed.

Lemma String_HashKey_range s : 0 <= Value (String_HashKey s) < 2 ^ 64.
Proof.
  unfold String_HashKey, fnv.Sum64; simpl.
  apply fnv_Write_range. unfold fnv.New64a, fnv.offset64. lia.
Qed.

(** The hash of the model is FNV-1a: the published test vectors of the
    empty string, of a and of foobar. *)
Example String_HashKey_vectors :
  Value (String_HashKey EmptyString) = 14695981039346656037 /\
  Value (String_HashKey "a") = 12638187200555641996 /\
  Value (String_HashKey "foobar") = 9625390261332436968.
Proof. repeat split; vm_compute; reflexivity. Qed.

(** C3: two objects of the same type and the same value have the same
    HashKey; for two Strings of identical text it is the key with the tag
    STRING and the 64-bit FNV-1a hash of the bytes of the text. *)
Theorem HashKey_of_equal_objects :
  forall a b : Object,
    semantically_equal a b ->
    exists k : HashKey,
      Hashable_HashKey a = Some k /\ Hashable_HashKey b = Some k /\
      0 <= Value k < 2 ^ 64 /\
      (forall s, a = String s ->
         Type' k = STRING_OBJ /\
         Value k = fnv.Sum64 (fnv.Write fnv.New64a s) /\
         String_HashKey s = k).
Proof.
  intros a b Heq.
  destruct a as [| x | x | | ? | ? ? ? | ? | x | ? | ? | ? ]; try done;
    destruct b as [| y | y | | ? | ? ? ? | ? | y | ? | ? | ? ]; try done;
    simpl in Heq; subst y; simpl.
  - exists (Integer_HashKey x). repeat split; try done; apply uint64_range.
  - exists (Boolean_HashKey x). repeat split; try done;
      destruct x; simpl; lia.
  - exists (String_HashKey x). split; [done|]. split; [done|].
    split; [apply String_HashKey_range|].
    intros s [= <-]. done.
Qed.

Lemma HashKey_of_equal_objects_witness :
  semantically_equal (String "name") (String "name") /\
  exists k : HashKey,
    Hashable_HashKey (String "name") = Some k /\
    Hashable_HashKey (String "name") = Some k /\
    0 <= Value k < 2 ^ 64 /\
    (forall s, String "name" = String s ->
       Type' k = STRING_OBJ /\
       Value k = fnv.Sum64 (fnv.Write fnv.New64a s) /\
       String_HashKey s = k).
Proof.
  split; [reflexivity|].
  apply (HashKey_of_equal_objects (String "name") (String "name")).
  reflexivity.
Defined.

(** C4: two distinct values among the Integers and the Booleans have
    distinct HashKeys. Two Integers of different [int64] values differ in
    the hash, true and false hash to 1 and 0, and an Integer and a Boolean
    differ in the type tag. *)
Theorem HashKey_Integer_Boolean_distinct :
  forall a b : Object,
    Integer_or_Boolean a -> Integer_or_Boolean b -> a ≠ b ->
    exists ka kb : HashKey,
      Hashable_HashKey a = Some ka /\ Hashable_HashKey b = Some kb /\
      ka ≠ kb /\
      (Object_Type a = Object_Type b -> Value ka ≠ Value kb) /\
      (Object_Type a ≠ Object_Type b -> Type' ka ≠ Type' kb) /\
      Value (Boolean_HashKey true) = 1 /\ Value (Boolean_HashKey false) = 0.
Proof.
  intros a b Ha Hb Hne.
  destruct a as [| i | x | | ? | ? ? ? | ? | ? | ? | ? | ? ]; try done;
    destruct b as [| j | y | | ? | ? ? ? | ? | ? | ? | ? | ? ]; try done;
    simpl in *.
  - exists (Integer_HashKey i), (Integer_HashKey j).
    assert (Hv : uint64 i ≠ uint64 j).
    { intros Hu. apply Hne. f_equal. by apply uint64_inj. }
    repeat split; try done.
    intros [= Hu]. done.
  - exists (Integer_HashKey i), (Boolean_HashKey y).
    repeat split; try done.
  - exists (Boolean_HashKey x), (Integer_HashKey j).
    repeat split; try done.
  - exists (Boolean_HashKey x), (Boolean_HashKey y).
    assert (Hv : Value (Boolean_HashKey x) ≠ Value (Boolean_HashKey y)).
    { destruct x, y; simpl; try done. }
    repeat split; try done.
    intros Hk. apply Hv. by rewrite Hk.
Qed.

Lemma HashKey_Integer_Boolean_distinct_witness :
  Integer_or_Boolean (Integer (-1)) /\ Integer_or_Boolean (Integer 1) /\
  Integer (-1) ≠ Integer 1 /\
  exists ka kb : HashKey,
    Hashable_HashKey (Integer (-1)) = Some ka /\
    Hashable_HashKey (Integer 1) = Some kb /\
    ka ≠ kb /\
    (Object_Type (Integer (-1)) = Object_Type (Integer 1) ->
       Value ka ≠ Value kb) /\
    (Object_Type (Integer (-1)) ≠ Object_Type (Integer 1) ->
       Type' ka ≠ Type' kb) /\
    Value (Boolean_HashKey true) = 1 /\ Value (Boolean_HashKey false) = 0.
Proof.
  assert (H1 : Integer_or_Boolean (Integer (-1))) by (simpl; unfold int64_range; lia).
  assert (H2 : Integer_or_Boolean (Integer 1)) by (simpl; unfold int64_range; lia).
  assert (H3 : Integer (-1) ≠ Integer 1) by discriminate.
  split; [exact H1|]. split; [exact H2|]. split; [exact H3|].
  exact (HashKey_Integer_Boolean_distinct (Integer (-1)) (Integer 1) H1 H2 H3).
Defined.

(** ** Slices and the monad *)

Lemma len_nil {A : Type} : len (@nil A) = 0.
Proof. reflexivity. Qed.

Lemma len_cons {A : Type} (x : A) (l : list A) : len (x :: l) = 1 + len l.
Proof. unfold len; simpl length. lia. Qed.

Lemma len_nonneg {A : Type} (l : list A) : 0 <= len l.
Proof. unfold len. lia. Qed.

Lemma len_app {A : Type} (l k : list A) : len (l ++ k) = len l + len k.
Proof. unfold len. rewrite length_app. lia. Qed.

Lemma bind_Returns {A B : Type} (m : Go A) (f : A -> Go B) a out out' :
  m out = (Returns a, out') -> (m ≫= f) out = f a out'.
Proof. intros H. unfold mbind, Go_bind. by rewrite H. Qed.

Lemma bind_Panics {A B : Type} (m : Go A) (f : A -> Go B) why out out' :
  m out = (Panics why, out') -> (m ≫= f) out = (Panics why, out').
Proof. intros H. unfold mbind, Go_bind. by rewrite H. Qed.

Lemma bind_assoc {A B C : Type} (m : Go A) (f : A -> Go B) (g : B -> Go C)
  out :
  ((m ≫= f) ≫= g) out = (m ≫= fun a => f a ≫= g) out.
Proof.
  unfold mbind, Go_bind. destruct (m out) as [[a|why] out']; reflexivity.
Qed.

Lemma bind_ext {A B : Type} (m m' : Go A) (f g : A -> Go B) out :
  (forall o, m o = m' o) -> (forall a o, f a o = g a o) ->
  (m ≫= f) out = (m' ≫= g) out.
Proof.
  intros Hm Hf. unfold mbind, Go_bind. rewrite Hm.
  destruct (m' out) as [[a|why] out']; [apply Hf | reflexivity].
Qed.

Lemma index_Some {A : Type} (s : list A) (i : Z) (x : A) out :
  0 <= i -> s !! Z.to_nat i = Some x -> index s i out = (Returns x, out).
Proof.
  intros Hi Hx. unfold index. rewrite bool_decide_true by done.
  by rewrite Hx.
Qed.

Lemma index_in_range {A : Type} (s : list A) (i : Z) out :
  0 <= i < len s -> exists x, s !! Z.to_nat i = Some x /\
                              index s i out = (Returns x, out).
Proof.
  intros Hi. destruct (lookup_lt_is_Some_2 s (Z.to_nat i)) as [x Hx].
  { unfold len in Hi. lia. }
  exists x. split; [done|]. apply index_Some; [lia | done].
Qed.

Lemma make_nonneg {A : Type} (zero : A) (n : nat) out :
  make zero (Z.of_nat n) out = (Returns (replicate n zero), out).
Proof.
  unfold make. rewrite bool_decide_true by lia. by rewrite Nat2Z.id.
Qed.

Lemma copy_replicate {A : Type} (zero : A) (n : nat) (src : list A) :
  (length src <= n)%nat ->
  copy (replicate n zero) src = (src ++ replicate (n - length src) zero)%list.
Proof.
  intros Hn. unfold copy.
  rewrite length_replicate, take_ge, drop_replicate by lia. done.
Qed.

Lemma set_index_last {A : Type} (l : list A) (zero x : A) out :
  set_index (l ++ [zero])%list (len l) x out = (Returns (l ++ [x])%list, out).
Proof.
  unfold set_index.
  rewrite bool_decide_true by (unfold len; rewrite length_app; simpl; lia).
  unfold len. rewrite Nat2Z.id.
  rewrite insert_app_r_alt by lia. by rewrite Nat.sub_diag.
Qed.

(** ** The builtins on arrays *)

Lemma first_Array (a : list Object) out :
  builtin_first [Array a] out =
  (Returns (match a with [] => NULL | x :: _ => x end), out).
Proof.
  unfold builtin_first. rewrite bool_decide_false by (compute; lia).
  erewrite bind_Returns by (by apply index_Some).
  destruct a as [|x t]; cbv beta iota.
  - done.
  - rewrite bool_decide_false by (rewrite len_cons; pose proof (len_nonneg t); lia).
    by apply index_Some.
Qed.

Lemma last_Array (a : list Object) out :
  builtin_last [Array a] out =
  (Returns (match last a with None => NULL | Some x => x end), out).
Proof.
  unfold builtin_last. rewrite bool_decide_false by (compute; lia).
  erewrite bind_Returns by (by apply index_Some).
  destruct a as [|x t]; cbv beta iota.
  - done.
  - rewrite bool_decide_false by (rewrite len_cons; pose proof (len_nonneg t); lia).
    rewrite last_lookup.
    destruct (index_in_range (x :: t) (len (x :: t) - 1) out) as (y & Hy & Hi).
    { rewrite len_cons; pose proof (len_nonneg t); lia. }
    rewrite Hi.
    replace (Z.to_nat (len (x :: t) - 1)) with (pred (length (x :: t))) in Hy
      by (unfold len; simpl length; lia).
    by rewrite Hy.
Qed.

Lemma rest_Array (a : list Object) out :
  builtin_rest [Array a] out =
  (Returns (match a with [] => NULL | _ :: t => Array t end), out).
Proof.
  unfold builtin_rest. rewrite bool_decide_false by (compute; lia).
  erewrite bind_Returns by (by apply index_Some).
  destruct a as [|x t]; cbv beta iota.
  - done.
  - rewrite bool_decide_false by (rewrite len_cons; pose proof (len_nonneg t); lia).
    replace (len (x :: t) - 1) with (Z.of_nat (length t))
      by (rewrite len_cons; unfold len; lia).
    erewrite bind_Returns by apply make_nonneg.
    unfold slice_from.
    rewrite bool_decide_true by (rewrite len_cons; pose proof (len_nonneg t); lia).
    erewrite bind_Returns by reflexivity.
    change (drop (Z.to_nat 1) (x :: t)) with t.
    rewrite copy_replicate by lia.
    rewrite Nat.sub_diag; simpl. by rewrite app_nil_r.
Qed.

(** C6: on a single Array argument, [first] returns the first element and
    [last] the final element of a non-empty array, [rest] returns an Array
    of the elements after the head, in order and one fewer; each returns
    Null on the empty array. *)
Theorem first_last_rest :
  forall (a : list Object) (out : list string),
    builtin_first [Array a] out =
      (Returns (match a with [] => NULL | x :: _ => x end), out) /\
    builtin_last [Array a] out =
      (Returns (match last a with None => NULL | Some x => x end), out) /\
    builtin_rest [Array a] out =
      (Returns (match a with [] => NULL | _ :: t => Array t end), out) /\
    match a with [] => True | _ :: t => len t = len a - 1 end.
Proof.
  intros a out. split; [apply first_Array|].
  split; [apply last_Array|]. split; [apply rest_Array|].
  destruct a as [|x t]; [done|]. rewrite len_cons; lia.
Qed.

Lemma push_Array (a : list Object) (x : Object) out :
  builtin_push [Array a; x] out = (Returns (Array (a ++ [x])), out).
Proof.
  unfold builtin_push. rewrite bool_decide_false by (compute; lia).
  erewrite bind_Returns by (by apply index_Some).
  cbv beta iota zeta.
  replace (len a + 1) with (Z.of_nat (length a + 1)) by (unfold len; lia).
  erewrite bind_Returns by apply make_nonneg.
  rewrite copy_replicate by lia.
  replace (length a + 1 - length a)%nat with 1%nat by lia.
  erewrite bind_Returns by (by apply index_Some).
  erewrite bind_Returns by apply set_index_last.
  done.
Qed.

(** ** The memory behind the slices of [push] *)

Section MemoryFacts.

Context {V : Type} (zero : V).
Implicit Types (h : gmap positive (list V)) (s : memory.slice).

Lemma read_length h s a :
  memory.read h s = Some a -> length a = memory.size s.
Proof.
  unfold memory.read. destruct (h !! memory.base s); [|done].
  case_decide; [|done]. intros [= <-].
  rewrite length_take, length_drop. lia.
Qed.

Lemma read_allocated h s a :
  memory.read h s = Some a -> is_Some (h !! memory.base s).
Proof.
  unfold memory.read. destruct (h !! memory.base s); [eauto | done].
Qed.

Lemma read_insert_ne h s p cells :
  memory.base s ≠ p ->
  memory.read (<[p := cells]> h) s = memory.read h s.
Proof.
  intros Hne. unfold memory.read. by rewrite lookup_insert_ne.
Qed.

Lemma read_whole h p cells n :
  n = length cells ->
  memory.read (<[p := cells]> h)
    {| memory.base := p; memory.off := 0; memory.size := n |} = Some cells.
Proof.
  intros ->. unfold memory.read; simpl. rewrite lookup_insert_eq.
  rewrite decide_True by lia. by rewrite drop_0, firstn_all.
Qed.

Lemma overwrite_whole h p cells vs n :
  n = length cells ->
  memory.overwrite (<[p := cells]> h)
    {| memory.base := p; memory.off := 0; memory.size := n |} vs
  = <[p := vs]> h.
Proof.
  intros ->. unfold memory.overwrite; simpl.
  rewrite alter_insert_eq.
  rewrite drop_ge by lia. by rewrite app_nil_r.
Qed.

Lemma fresh_unallocated h : h !! fresh (dom h) = None.
Proof. apply not_elem_of_dom, is_fresh. Qed.

Lemma push_Elements_eq h s x a :
  memory.read h s = Some a ->
  memory.push_Elements zero h s x =
  Some ({| memory.base := fresh (dom h); memory.off := 0;
           memory.size := memory.size s + 1 |},
        <[fresh (dom h) := (a ++ [x])%list]> h).
Proof.
  intros Hr. pose proof (read_length _ _ _ Hr) as Hlen.
  assert (Hne : memory.base s ≠ fresh (dom h)).
  { intros Heq. destruct (read_allocated _ _ _ Hr) as [c Hc].
    rewrite Heq, fresh_unallocated in Hc. discriminate. }
  unfold memory.push_Elements, memory.mem_make. cbv zeta.
  unfold memory.mem_copy.
  rewrite read_whole by (by rewrite length_replicate).
  rewrite read_insert_ne, Hr by done.
  rewrite overwrite_whole by (by rewrite length_replicate).
  rewrite copy_replicate by lia.
  replace (memory.size s + 1 - length a)%nat with 1%nat by lia.
  unfold memory.mem_set_index.
  rewrite read_whole by (rewrite length_app; simpl; lia).
  simpl memory.size. rewrite decide_True by lia.
  rewrite overwrite_whole by (rewrite length_app; simpl; lia).
  rewrite <- Hlen. rewrite insert_app_r_alt by lia.
  by rewrite Nat.sub_diag.
Qed.

End MemoryFacts.

(** C2: [push] on an Array of elements a and an object x returns an Array
    of the elements of a, in order, followed by x. In memory, the slice it
    returns lies in a backing array allocated by the call, and every
    backing array that existed before the call, that of a among them, holds
    after the call what it held before: a still reads as the same
    sequence. *)
Theorem push_appends_to_a_copy :
  forall (a : list Object) (x : Object) (out : list string)
         (h : gmap positive (list Object)) (Elements : memory.slice),
    memory.read h Elements = Some a ->
    builtin_push [Array a; x] out = (Returns (Array (a ++ [x])), out) /\
    exists (newElements : memory.slice) (h' : gmap positive (list Object)),
      memory.push_Elements nil_Object h Elements x = Some (newElements, h') /\
      memory.read h' newElements = Some (a ++ [x])%list /\
      memory.read h' Elements = Some a /\
      h !! memory.base newElements = None /\
      forall p cells, h !! p = Some cells -> h' !! p = Some cells.
Proof.
  intros a x out h Elements Hr. split; [apply push_Array|].
  eexists _, _. split; [by apply push_Elements_eq|].
  assert (Hne : forall p cells, h !! p = Some cells -> p ≠ fresh (dom h)).
  { intros p cells Hp ->. rewrite fresh_unallocated in Hp. discriminate. }
  split; [|split; [|split]].
  - apply read_whole. rewrite length_app; simpl.
    by rewrite (read_length _ _ _ Hr).
  - destruct (read_allocated _ _ _ Hr) as [c Hc].
    rewrite read_insert_ne; [done | by eapply Hne].
  - apply fresh_unallocated.
  - intros p cells Hp. rewrite lookup_insert_ne; [done|].
    intros Heq. by eapply Hne.
Qed.

Lemma push_appends_to_a_copy_witness :
  memory.read ({[ 1%positive := [Integer 1; Integer 2] ]}
                 : gmap positive (list Object))
    {| memory.base := 1%positive; memory.off := 0; memory.size := 2 |}
  = Some [Integer 1; Integer 2] /\
  builtin_push [Array [Integer 1; Integer 2]; Integer 3] [] =
    (Returns (Array [Integer 1; Integer 2; Integer 3]), []).
Proof.
  assert (Hr : memory.read ({[ 1%positive := [Integer 1; Integer 2] ]}
                              : gmap positive (list Object))
                 {| memory.base := 1%positive; memory.off := 0;
                    memory.size := 2 |}
               = Some [Integer 1; Integer 2])
    by (vm_compute; reflexivity).
  split; [exact Hr|].
  exact (proj1 (push_appends_to_a_copy [Integer 1; Integer 2] (Integer 3) []
                  _ _ Hr)).
Defined.

(** ** The length of a string *)

Lemma int64_small z : 0 <= z < 2 ^ 63 -> int64 z = z.
Proof.
  intros Hz. unfold int64. rewrite Z.mod_small; lia.
Qed.

Lemma length_string_of_list_ascii (l : list ascii) :
  String.length (string_of_list_ascii l) = length l.
Proof. induction l as [|c l IH]; simpl; [done | by rewrite IH]. Qed.

Lemma EncodeRune_length r :
  (1 <= length (utf8.EncodeRune r))%nat /\
  (utf8.multibyte r -> 2 <= length (utf8.EncodeRune r))%nat.
Proof.
  unfold utf8.EncodeRune, utf8.multibyte, utf8.EncodeRune3.
  repeat case_bool_decide; simpl; split; intros; lia.
Qed.

Lemma encode_length (text : list Z) :
  (length text <= String.length (utf8.encode text))%nat /\
  (Exists utf8.multibyte text ->
   length text < String.length (utf8.encode text))%nat.
Proof.
  unfold utf8.encode. rewrite length_string_of_list_ascii.
  induction text as [|r text [IH1 IH2]]; simpl.
  - split; [lia|]. intros H. inversion H.
  - rewrite length_app. destruct (EncodeRune_length r) as [H1 H2].
    split; [lia|]. intros H. inversion H as [? ? Hr | ? ? Ht]; subst.
    + specialize (H2 Hr). lia.
    + specialize (IH2 Ht). lia.
Qed.

Lemma len_String (s : string) out :
  builtin_len [String s] out = (Returns (Integer (int64 (len_string s))), out).
Proof.
  unfold builtin_len. rewrite bool_decide_false by (compute; lia).
  by erewrite bind_Returns by (by apply index_Some).
Qed.

(** C10: [len] on a single String argument returns the number of bytes of
    the string (a string's length fits an [int64]). The string of a text
    is its UTF-8 encoding, so the result is never below the number of
    characters of the text and exceeds it as soon as one character takes
    more than one byte. *)
Theorem len_of_String_counts_bytes :
  forall (s : string) (out : list string),
    len_string s < 2 ^ 63 ->
    builtin_len [String s] out =
      (Returns (Integer (Z.of_nat (String.length s))), out) /\
    forall text : list Z,
      s = utf8.encode text ->
      len text <= Z.of_nat (String.length s) /\
      (Exists utf8.multibyte text -> len text < Z.of_nat (String.length s)).
Proof.
  intros s out Hs. split.
  - rewrite len_String, int64_small; [done|]. unfold len_string in *. lia.
  - intros text ->. destruct (encode_length text) as [H1 H2].
    unfold len. split; [lia|]. intros H. specialize (H2 H). lia.
Qed.

Lemma len_of_String_counts_bytes_witness :
  len_string (utf8.encode [104; 233; 108; 108; 111]) < 2 ^ 63 /\
  builtin_len [String (utf8.encode [104; 233; 108; 108; 111])] [] =
    (Returns (Integer 6), []) /\
  len [104; 233; 108; 108; 111] < 6.
Proof.
  assert (Hs : len_string (utf8.encode [104; 233; 108; 108; 111]) < 2 ^ 63)
    by (vm_compute; reflexivity).
  split; [exact Hs|]. split.
  - exact (proj1 (len_of_String_counts_bytes _ [] Hs)).
  - vm_compute; reflexivity.
Defined.

(** [Inspect] of an object without nil inside does not panic. *)
Lemma Inspect_defined Sprintf_v (o : Object) :
  defined o = true -> is_Some (Object_Inspect Sprintf_v o).
Proof.
  induction o as [| | | | | | | | | els IH | pairs IH]
    using Object_nested_ind; simpl; intros Hd; try done; try by eauto.
  - assert (H : is_Some
      ((fix range (l : list Object) : option (list string) :=
          match l with
          | [] => Some []
          | entry :: l' =>
              match Object_Inspect Sprintf_v entry with
              | Some s => option_map (cons s) (range l')
              | None => None
              end
          end) els)).
    { induction els as [|x els IHels]; [by eauto|].
      simpl in Hd. apply andb_prop in Hd as [Hx Hels].
      inversion IH as [|? ? Hpx Hpels]; subst.
      destruct (Hpx Hx) as [s ->].
      destruct (IHels Hpels Hels) as [ss ->]. simpl. eauto. }
    destruct H as [ss ->]. eauto.
  - assert (H : is_Some
      ((fix range (l : list (HashKey * (Object * Object)))
          : option (list string) :=
          match l with
          | [] => Some []
          | (_, (k, v)) :: l' =>
              match Object_Inspect Sprintf_v k, Object_Inspect Sprintf_v v with
              | Some ks, Some vs =>
                  option_map (cons (ks ++ ": " ++ vs)) (range l')
              | _, _ => None
              end
          end) pairs)).
    { induction pairs as [|[hk [k v]] pairs IHpairs]; [by eauto|].
      simpl in Hd. apply andb_prop in Hd as [Hkv Hpairs].
      apply andb_prop in Hkv as [Hk Hv].
      inversion IH as [|? ? [Hpk Hpv] Hps]; subst. simpl in Hpk, Hpv.
      destruct (Hpk Hk) as [ks ->]. destruct (Hpv Hv) as [vs ->].
      destruct (IHpairs Hps Hpairs) as [ss ->]. simpl. eauto. }
    destruct H as [ss ->]. eauto.
Qed.

(** ** Totality of the builtins *)

Lemma len_1 {A : Type} (l : list A) : len l = 1 -> exists a, l = [a].
Proof.
  destruct l as [|a [|b l]]; intros H.
  - discriminate.
  - eauto.
  - rewrite !len_cons in H. pose proof (len_nonneg l). lia.
Qed.

Lemma len_2 {A : Type} (l : list A) : len l = 2 -> exists a b, l = [a; b].
Proof.
  destruct l as [|a [|b [|c l]]]; intros H.
  - discriminate.
  - discriminate.
  - eauto.
  - rewrite !len_cons in H. pose proof (len_nonneg l). lia.
Qed.

Lemma defined_last (els : list Object) (x : Object) :
  forallb defined els = true -> last els = Some x -> defined x = true.
Proof.
  induction els as [|y els IH]; [done|].
  simpl forallb. intros [Hy Hels]%andb_prop. destruct els as [|z els].
  - intros [= <-]. done.
  - rewrite last_cons_cons. by apply IH.
Qed.

Lemma defined_app (l k : list Object) :
  forallb defined l = true -> forallb defined k = true ->
  forallb defined (l ++ k) = true.
Proof. intros Hl Hk. rewrite forallb_app, Hl, Hk. done. Qed.

(** A call that returns an Error object. *)
Lemma total_Error name (fn : BuiltInFunction) args out m :
  fn args out = (Returns (Error m), out) ->
  (Forall (fun a => defined a = true) args ->
   returns_an_Object name fn args out) /\
  panics_on_nil_only fn args out.
Proof.
  intros H. split.
  - intros _. exists (Error m), out. repeat split; eauto.
  - intros why out' H'. rewrite H in H'. discriminate.
Qed.

(** A call with the number and the kind of arguments asked for. *)
Lemma total_result name (fn : BuiltInFunction) args a out o :
  fn args out = (Returns o, out) ->
  (Forall (fun a => defined a = true) args -> defined o = true) ->
  wants name = Some (len args) -> head args = Some a ->
  supports name a = true ->
  (Forall (fun a => defined a = true) args ->
   returns_an_Object name fn args out) /\
  panics_on_nil_only fn args out.
Proof.
  intros H Ho Hw Ha Hs. split.
  - intros Hd. exists o, out. repeat split; try done; [by apply Ho| |].
    + intros n Hn Hne. rewrite Hw in Hn. congruence.
    + intros a' Ha' Hs'. congruence.
  - intros why out' H'. rewrite H in H'. discriminate.
Qed.

(** A call on nil where an array is asked for. *)
Lemma total_nil name (fn : BuiltInFunction) args out :
  fn (nil_Object :: args) out = (Panics NilDereference, out) ->
  (Forall (fun a => defined a = true) (nil_Object :: args) ->
   returns_an_Object name fn (nil_Object :: args) out) /\
  panics_on_nil_only fn (nil_Object :: args) out.
Proof.
  intros H. split.
  - intros Hd. inversion Hd; subst. discriminate.
  - intros why out' H'. rewrite H in H'. congruence.
Qed.

Lemma first_total args out :
  (Forall (fun a => defined a = true) args ->
   returns_an_Object "first" builtin_first args out) /\
  panics_on_nil_only builtin_first args out.
Proof.
  destruct (decide (len args = 1)) as [Hlen|Hlen].
  - apply len_1 in Hlen as [a ->].
    destruct a as [| ? | ? | | ? | ? ? ? | ? | ? | ? | els | ? ];
      try (apply total_nil; reflexivity);
      try (eapply total_Error; reflexivity).
    eapply total_result; try apply first_Array; try reflexivity.
    intros Hd. inversion Hd as [|? ? Ha _]; subst.
    destruct els as [|x t]; [done|].
    simpl in Ha. by apply andb_prop in Ha as [? ?].
  - eapply total_Error. unfold builtin_first.
    rewrite bool_decide_true by done. reflexivity.
Qed.

Lemma last_total args out :
  (Forall (fun a => defined a = true) args ->
   returns_an_Object "last" builtin_last args out) /\
  panics_on_nil_only builtin_last args out.
Proof.
  destruct (decide (len args = 1)) as [Hlen|Hlen].
  - apply len_1 in Hlen as [a ->].
    destruct a as [| ? | ? | | ? | ? ? ? | ? | ? | ? | els | ? ];
      try (apply total_nil; reflexivity);
      try (eapply total_Error; reflexivity).
    eapply total_result; try apply last_Array; try reflexivity.
    intros Hd. inversion Hd as [|? ? Ha _]; subst. simpl in Ha.
    destruct (last els) as [x|] eqn:Hlast; [|done].
    by eapply defined_last.
  - eapply total_Error. unfold builtin_last.
    rewrite bool_decide_true by done. reflexivity.
Qed.

Lemma rest_total args out :
  (Forall (fun a => defined a = true) args ->
   returns_an_Object "rest" builtin_rest args out) /\
  panics_on_nil_only builtin_rest args out.
Proof.
  destruct (decide (len args = 1)) as [Hlen|Hlen].
  - apply len_1 in Hlen as [a ->].
    destruct a as [| ? | ? | | ? | ? ? ? | ? | ? | ? | els | ? ];
      try (apply total_nil; reflexivity);
      try (eapply total_Error; reflexivity).
    eapply total_result; try apply rest_Array; try reflexivity.
    intros Hd. inversion Hd as [|? ? Ha _]; subst.
    destruct els as [|x t]; [done|].
    simpl in Ha. apply andb_prop in Ha as [? ?]. done.
  - eapply total_Error. unfold builtin_rest.
    rewrite bool_decide_true by done. reflexivity.
Qed.

Lemma push_total args out :
  (Forall (fun a => defined a = true) args ->
   returns_an_Object "push" builtin_push args out) /\
  panics_on_nil_only builtin_push args out.
Proof.
  destruct (decide (len args = 2)) as [Hlen|Hlen].
  - apply len_2 in Hlen as (a & b & ->).
    destruct a as [| ? | ? | | ? | ? ? ? | ? | ? | ? | els | ? ];
      try (apply total_nil; reflexivity);
      try (eapply total_Error; reflexivity).
    eapply total_result; try apply push_Array; try reflexivity.
    intros Hd. inversion Hd as [|? ? Ha Hd']; subst.
    inversion Hd' as [|? ? Hb _]; subst.
    simpl in *. apply defined_app; [done|]. simpl. by rewrite Hb.
  - eapply total_Error. unfold builtin_push.
    rewrite bool_decide_true by done. reflexivity.
Qed.

Lemma len_Array (a : list Object) out :
  builtin_len [Array a] out = (Returns (Integer (int64 (len a))), out).
Proof.
  unfold builtin_len. rewrite bool_decide_false by (compute; lia).
  by erewrite bind_Returns by (by apply index_Some).
Qed.

Lemma len_total args out :
  (Forall (fun a => defined a = true) args ->
   returns_an_Object "len" builtin_len args out) /\
  panics_on_nil_only builtin_len args out.
Proof.
  destruct (decide (len args = 1)) as [Hlen|Hlen].
  - apply len_1 in Hlen as [a ->].
    destruct a as [| ? | ? | | ? | ? ? ? | ? | s | ? | els | ? ];
      try (apply total_nil; reflexivity);
      try (eapply total_Error; reflexivity).
    + eapply total_result; try apply len_String; try reflexivity.
    + eapply total_result; try apply len_Array; try reflexivity.
  - eapply total_Error. unfold builtin_len.
    rewrite bool_decide_true by done. reflexivity.
Qed.

Lemma puts_range_total Sprintf_v args : forall out,
  (Forall (fun a => defined a = true) args ->
   exists out', puts_range Sprintf_v args out = (Returns tt, out')) /\
  (forall why out',
     puts_range Sprintf_v args out = (Panics why, out') ->
     why = NilDereference).
Proof.
  induction args as [|arg args IH]; intros out; cbn [puts_range].
  - split; [by eauto|]. intros why out' H. discriminate.
  - destruct (Object_Inspect Sprintf_v arg) as [s|] eqn:Hs.
    + erewrite bind_Returns by reflexivity.
      erewrite bind_Returns by reflexivity.
      destruct (IH (out ++ [String.append s newline])%list) as [IH1 IH2]. split.
      * intros Hd. inversion Hd; subst. by apply IH1.
      * apply IH2.
    + erewrite bind_Panics by reflexivity. split.
      * intros Hd. inversion Hd as [|? ? Ha _]; subst.
        destruct (Inspect_defined Sprintf_v arg Ha) as [s Hs'].
        congruence.
      * intros why out' [= <- _]. done.
Qed.

Lemma puts_total Sprintf_v args out :
  (Forall (fun a => defined a = true) args ->
   returns_an_Object "puts" (builtin_puts Sprintf_v) args out) /\
  panics_on_nil_only (builtin_puts Sprintf_v) args out.
Proof.
  destruct (puts_range_total Sprintf_v args out) as [H1 H2].
  unfold builtin_puts. split.
  - intros Hd. destruct (H1 Hd) as [out' Hr].
    exists NULL, out'. split; [by erewrite bind_Returns by apply Hr|].
    split; [done|]. split.
    + intros n Hn. discriminate.
    + intros a _ Hs. discriminate.
  - intros why out' H.
    destruct (puts_range Sprintf_v args out) as [[[]|why'] out''] eqn:Hr.
    + erewrite bind_Returns in H by apply Hr. discriminate.
    + erewrite bind_Panics in H by apply Hr. injection H as <- _.
      by eapply H2.
Qed.

Lemma builtins_lookup Sprintf_v name fn :
  builtins Sprintf_v !! name = Some fn ->
  (name = "puts" /\ fn = builtin_puts Sprintf_v) \/
  (name = "len" /\ fn = builtin_len) \/
  (name = "first" /\ fn = builtin_first) \/
  (name = "last" /\ fn = builtin_last) \/
  (name = "rest" /\ fn = builtin_rest) \/
  (name = "push" /\ fn = builtin_push).
Proof.
  unfold builtins. intros H.
  repeat (apply lookup_insert_Some in H as [[<- <-]|[_ H]]; [tauto|]).
  apply lookup_singleton_Some in H as [<- <-]. tauto.
Qed.

(** On arguments that hold no nil, the call of a registered builtin returns
    an object, which is an Error object when the number of arguments is
    not the one the builtin asks for, or when the first argument is of a
    kind it does not work on. Whatever the arguments, nil among them, no
    builtin indexes or slices out of range: [first], [last] and [rest]
    test for the empty array before they touch an element. *)
Theorem builtins_are_total :
  forall (Sprintf_v : Object -> string) (name : string)
         (fn : BuiltInFunction) (args : list Object) (out : list string),
    builtins Sprintf_v !! name = Some fn ->
    (Forall (fun a => defined a = true) args ->
     exists (o : Object) (out' : list string),
       fn args out = (Returns o, out') /\ defined o = true /\
       (forall n, wants name = Some n -> len args ≠ n ->
          exists m, o = Error m) /\
       (forall a, head args = Some a -> supports name a = false ->
          exists m, o = Error m)) /\
    (forall (why : cause) (out' : list string),
       fn args out = (Panics why, out') -> why = NilDereference).
Proof.
  intros Sprintf_v name fn args out H.
  apply builtins_lookup in H
    as [[-> ->]|[[-> ->]|[[-> ->]|[[-> ->]|[[-> ->]|[-> ->]]]]]].
  - apply puts_total.
  - apply len_total.
  - apply first_total.
  - apply last_total.
  - apply rest_total.
  - apply push_total.
Qed.

Lemma builtins_are_total_witness :
  builtins (fun _ => "<nil>") !! "first" = Some builtin_first /\
  Forall (fun a => defined a = true) [Array [Integer 7; Integer 8]] /\
  exists (o : Object) (out' : list string),
    builtin_first [Array [Integer 7; Integer 8]] [] = (Returns o, out') /\
    defined o = true /\
    (forall n, wants "first" = Some n ->
       len [Array [Integer 7; Integer 8]] ≠ n -> exists m, o = Error m) /\
    (forall a, head [Array [Integer 7; Integer 8]] = Some a ->
       supports "first" a = false -> exists m, o = Error m).
Proof.
  assert (H1 : builtins (fun _ => "<nil>") !! "first" = Some builtin_first)
    by reflexivity.
  assert (H2 : Forall (fun a => defined a = true)
                 [Array [Integer 7; Integer 8]])
    by (repeat constructor).
  split; [exact H1|]. split; [exact H2|].
  exact (proj1 (builtins_are_total (fun _ => "<nil>") "first" builtin_first
                  [Array [Integer 7; Integer 8]] [] H1) H2).
Defined.

(** C5 fails on a nil argument. The type switch of [len], [first], [last],
    [rest] and [push] sends nil to the default branch, which calls [Type]
    on it to word the error, and [puts] calls [Inspect] on every argument:
    each of the six registered builtins panics on nil where the claim has
    it return an Error object. [Start] tests the result of an evaluation
    against nil before it calls [Inspect] on it; the builtins have no such
    test. *)
Theorem builtins_panic_on_nil :
  forall (Sprintf_v : Object -> string) (out : list string),
    builtins Sprintf_v !! "first" = Some builtin_first /\
    builtin_first [nil_Object] out = (Panics NilDereference, out) /\
    builtin_last [nil_Object] out = (Panics NilDereference, out) /\
    builtin_rest [nil_Object] out = (Panics NilDereference, out) /\
    builtin_len [nil_Object] out = (Panics NilDereference, out) /\
    builtin_push [nil_Object; Integer 1] out = (Panics NilDereference, out) /\
    builtin_puts Sprintf_v [nil_Object] out = (Panics NilDereference, out).
Proof. intros Sprintf_v out. repeat split; reflexivity. Qed.

(** ** The REPL *)

Section Repl.

Variable Sprintf_v : Object -> string.
Variables Lexer Parser Program : Type.
Variable lexer_New : string -> Lexer.
Variable parser_New : Lexer -> Parser.
Variable ParseProgram : Parser -> Program * Parser.
Variable Errors : Parser -> list string.
Variable Eval : Program -> Environment -> Go (Object * Environment).

Local Abbreviation loop :=
  (repl.loop Sprintf_v Lexer Parser Program lexer_New parser_New
     ParseProgram Errors Eval).
Local Abbreviation line_step :=
  (spec.line_step Sprintf_v Lexer Parser Program lexer_New parser_New
     ParseProgram Errors Eval).

Lemma printParserErrors_range_out errors : forall out,
  repl.printParserErrors_range errors out =
  (Returns tt,
   (out ++ map (fun err => (tab ++ err ++ newline)%string) errors)%list).
Proof.
  induction errors as [|err errors IH]; intros out;
    cbn [repl.printParserErrors_range map].
  - by rewrite app_nil_r.
  - erewrite bind_Returns by reflexivity. rewrite IH.
    by rewrite <- app_assoc.
Qed.

Lemma printParserErrors_out errors out :
  repl.printParserErrors errors out = (Returns tt, (out ++ report errors)%list).
Proof.
  unfold repl.printParserErrors, report.
  do 3 (erewrite bind_Returns by reflexivity).
  rewrite printParserErrors_range_out.
  by rewrite <- !app_assoc.
Qed.

Lemma shown_eq evaluated out :
  match evaluated with
  | nil_Object => mret tt
  | _ =>
      s ← call (Object_Inspect Sprintf_v evaluated);
      _ ← write s;
      write newline
  end out = shown Sprintf_v evaluated out.
Proof.
  unfold shown.
  destruct evaluated; try done;
    match goal with
    | |- context [Object_Inspect Sprintf_v ?o] =>
        destruct (Object_Inspect Sprintf_v o) as [s|] eqn:Hs
    end;
    first [ erewrite bind_Panics by reflexivity; reflexivity
          | erewrite bind_Returns by reflexivity;
            erewrite bind_Returns by reflexivity;
            unfold write; by rewrite <- app_assoc ].
Qed.

Lemma len_zero_iff {A : Type} (l : list A) : len l = 0 <-> l = [].
Proof.
  destruct l; [done|]. rewrite len_cons. pose proof (len_nonneg l).
  split; [lia | discriminate].
Qed.

(** One turn of the loop is a prompt, the step of the line, and the loop
    on the remaining lines. *)
Lemma loop_step env line lines out :
  loop env (line :: lines) out =
  (_ ← write repl.PROMPT;
   env' ← line_step env line;
   loop env' lines) out.
Proof.
  cbn [repl.loop]. erewrite bind_Returns by reflexivity.
  erewrite (bind_Returns (write repl.PROMPT)) by reflexivity.
  unfold spec.line_step.
  destruct (ParseProgram (parser_New (lexer_New line))) as [program p].
  case_bool_decide as Herr.
  - destruct (Errors p) as [|err errors] eqn:He.
    { exfalso. apply Herr. reflexivity. }
    erewrite bind_Returns by apply printParserErrors_out.
    erewrite bind_Returns by reflexivity. reflexivity.
  - apply len_zero_iff in Herr. rewrite Herr.
    rewrite bind_assoc. apply bind_ext; [done|].
    intros [evaluated env'] o. rewrite bind_assoc.
    apply bind_ext; [apply shown_eq | done].
Qed.

Lemma loop_fold lines : forall (before : Go Environment) out,
  (env ← before; loop env lines) out =
  (env ← fold_left
           (fun (before : Go Environment) (line : string) =>
              env ← before;
              _ ← write repl.PROMPT;
              line_step env line)
           lines before;
   _ ← write repl.PROMPT;
   mret env) out.
Proof.
  induction lines as [|line lines IH]; intros before out.
  - reflexivity.
  - cbn [fold_left]. rewrite <- IH. rewrite bind_assoc.
    apply bind_ext; [done|]. intros env o. rewrite loop_step.
    by rewrite bind_assoc.
Qed.

(** C8: [Start] runs the session that the specification describes. Every
    line gets a parser of its own over a lexer of its own; a line whose
    parser has accumulated errors has them all printed and is not
    evaluated; any other line is evaluated against the environment that
    [Start] created once and that every evaluation hands on to the next
    line, and the [Inspect] text of its result is printed, followed by a
    newline, unless the result is nil. *)
Theorem Start_runs_the_session :
  forall (lines : list string) (out : list string),
    repl.Start Sprintf_v Lexer Parser Program lexer_New parser_New
      ParseProgram Errors Eval lines out
    = spec.session Sprintf_v Lexer Parser Program lexer_New parser_New
        ParseProgram Errors Eval lines out.
Proof.
  intros lines out. unfold repl.Start, spec.session. cbv zeta.
  rewrite <- loop_fold. reflexivity.
Qed.

End Repl.

(** A session over a toy language: the line bad does not parse, the line
    let binds x to 5 and has no result, any other line looks x up. The
    binding made on the third line is seen on the fourth, and the line
    that does not parse is reported and leaves the environment alone. *)
Example Start_transcript :
  snd (repl.Start (fun _ => "<nil>") string string string
         (fun line => line) (fun l => l) (fun p => (p, p))
         (fun p => if String.eqb p "bad" then ["e1"; "e2"] else [])
         (fun program env =>
            if String.eqb program "let"
            then mret (nil_Object, snd (Environment_Set env "x" (Integer 5)))
            else mret (fst (Environment_Get env "x"), env))
         ["x"; "bad"; "let"; "x"] [])
  = [ ">>";
      ">>"; repl.MONKEY_FACE;
      "Whoos! We ran into some monkey business here!" ++ newline;
      " parser errors:" ++ newline;
      tab ++ "e1" ++ newline; tab ++ "e2" ++ newline;
      ">>";
      ">>"; "5"; newline;
      ">>" ].
Proof. vm_compute. reflexivity. Qed.

(** * Further properties of the code *)

(** ** Environments: how calls of [Set] compose *)

Lemma Environment_eq (e e' : Environment) : store e = store e' -> e = e'.
Proof. destruct e, e'; simpl. by intros ->. Qed.

(** A second [Set] of a name replaces the first: the environment is the one
    that the second [Set] alone would have made. And [Set] calls of two
    different names can be made in either order. *)
Theorem Set_overwrites_and_commutes :
  forall (e : Environment) (n m : string) (v w : Object),
    snd (Environment_Set (snd (Environment_Set e n v)) n w)
      = snd (Environment_Set e n w) /\
    (n ≠ m ->
     snd (Environment_Set (snd (Environment_Set e n v)) m w)
       = snd (Environment_Set (snd (Environment_Set e m w)) n v)).
Proof.
  intros e n m v w. split.
  - apply Environment_eq; simpl. apply insert_insert_eq.
  - intros Hne. apply Environment_eq; simpl. by apply insert_insert_ne.
Qed.

Lemma Set_overwrites_and_commutes_witness :
  "a" ≠ "b" /\
  snd (Environment_Set (snd (Environment_Set NewEnvironment "a" (Integer 1)))
         "b" (Integer 2))
  = snd (Environment_Set (snd (Environment_Set NewEnvironment "b" (Integer 2)))
          "a" (Integer 1)).
Proof.
  assert (H : "a" ≠ "b") by discriminate.
  split; [exact H|].
  exact (proj2 (Set_overwrites_and_commutes NewEnvironment "a" "b"
                  (Integer 1) (Integer 2)) H).
Defined.

(** [Set] never unbinds a name: after [Set] of n, the names that [Get]
    finds are n and the names it found before. A fresh environment finds
    none. *)
Theorem Set_only_adds :
  forall (e : Environment) (n m : string) (v : Object),
    (snd (Environment_Get (snd (Environment_Set e n v)) m) = true <->
     m = n \/ snd (Environment_Get e m) = true) /\
    Environment_Get NewEnvironment m = (nil_Object, false).
Proof.
  intros e n m v. split.
  - rewrite !Get_found. simpl. rewrite lookup_insert_is_Some.
    split.
    + intros [->|[_ H]]; [by left | by right].
    + intros [->|H]; [by left|].
      destruct (decide (n = m)) as [->|Hne]; [by left | by right].
  - unfold Environment_Get, NewEnvironment; simpl. by rewrite lookup_empty.
Qed.

(** [Set] of a name to the value that [Get] already finds for it leaves the
    environment as it was. *)
Theorem Set_of_the_bound_value :
  forall (e : Environment) (n : string) (v : Object),
    Environment_Get e n = (v, true) ->
    snd (Environment_Set e n v) = e.
Proof.
  intros e n v H. apply Environment_eq; simpl. apply insert_id.
  unfold Environment_Get in H.
  destruct (store e !! n) as [o|]; [|discriminate]. by injection H as ->.
Qed.

Lemma Set_of_the_bound_value_witness :
  Environment_Get (snd (Environment_Set NewEnvironment "a" (Integer 1))) "a"
    = (Integer 1, true) /\
  snd (Environment_Set (snd (Environment_Set NewEnvironment "a" (Integer 1)))
         "a" (Integer 1))
  = snd (Environment_Set NewEnvironment "a" (Integer 1)).
Proof.
  assert (H : Environment_Get
                (snd (Environment_Set NewEnvironment "a" (Integer 1))) "a"
              = (Integer 1, true)) by (vm_compute; reflexivity).
  split; [exact H|].
  exact (Set_of_the_bound_value _ "a" (Integer 1) H).
Defined.

(** ** Hash keys: the tag and the value *)

Lemma int64_uint64 i : int64_range i -> int64 (uint64 i) = i.
Proof.
  unfold int64_range, int64, uint64.
  change (2 ^ 63) with 9223372036854775808.
  change (2 ^ 64) with 18446744073709551616.
  intros Hi. Z.div_mod_to_equations. lia.
Qed.

(** The tag of a HashKey is the type of the object it was made of, and its
    value is a 64-bit number; so the keys of two hashable objects of
    different types differ, whatever their values. *)
Theorem HashKey_tag_is_the_Type :
  forall (a b : Object) (ka kb : HashKey),
    Hashable_HashKey a = Some ka -> Hashable_HashKey b = Some kb ->
    Object_Type a = Some (Type' ka) /\ 0 <= Value ka < 2 ^ 64 /\
    (Object_Type a ≠ Object_Type b -> ka ≠ kb).
Proof.
  intros a b ka kb Ha Hb.
  assert (Htag : forall o k, Hashable_HashKey o = Some k ->
                             Object_Type o = Some (Type' k)).
  { intros o k H. destruct o; simpl in H; try discriminate;
      injection H as <-; reflexivity. }
  split; [by apply Htag|]. split.
  - destruct a; simpl in Ha; try discriminate; injection Ha as <-.
    + apply uint64_range.
    + match goal with |- context [Boolean_HashKey ?b] => destruct b end;
        simpl; lia.
    + apply String_HashKey_range.
  - intros Hne ->. apply Hne.
    by rewrite (Htag _ _ Ha), (Htag _ _ Hb).
Qed.

Lemma HashKey_tag_is_the_Type_witness :
  Hashable_HashKey (String "1") = Some (String_HashKey "1") /\
  Hashable_HashKey (Integer 1) = Some (Integer_HashKey 1) /\
  (Object_Type (String "1") ≠ Object_Type (Integer 1) ->
   String_HashKey "1" ≠ Integer_HashKey 1).
Proof.
  assert (Ha : Hashable_HashKey (String "1") = Some (String_HashKey "1"))
    by reflexivity.
  assert (Hb : Hashable_HashKey (Integer 1) = Some (Integer_HashKey 1))
    by reflexivity.
  split; [exact Ha|]. split; [exact Hb|].
  exact (proj2 (proj2 (HashKey_tag_is_the_Type _ _ _ _ Ha Hb))).
Defined.

(** The value of the key of an Integer is the [int64] read as unsigned: the
    integer itself when it is not negative, 2^64 more when it is; and the
    conversion back to [int64] recovers the integer from the key. *)
Theorem Integer_HashKey_round_trip :
  forall i : Z,
    int64_range i ->
    int64 (Value (Integer_HashKey i)) = i /\
    (0 <= i -> Value (Integer_HashKey i) = i) /\
    (i < 0 -> Value (Integer_HashKey i) = i + 2 ^ 64).
Proof.
  intros i Hi. split; [by apply int64_uint64|].
  simpl. unfold uint64, int64_range in *.
  change (2 ^ 63) with 9223372036854775808 in Hi.
  change (2 ^ 64) with 18446744073709551616.
  split; intros Hs; Z.div_mod_to_equations; lia.
Qed.

Lemma Integer_HashKey_round_trip_witness :
  int64_range (-1) /\
  int64 (Value (Integer_HashKey (-1))) = -1 /\
  Value (Integer_HashKey (-1)) = 18446744073709551615.
Proof.
  assert (H : int64_range (-1)) by (unfold int64_range; lia).
  split; [exact H|]. split.
  - exact (proj1 (Integer_HashKey_round_trip (-1) H)).
  - apply (proj2 (proj2 (Integer_HashKey_round_trip (-1) H))). lia.
Defined.

(** ** Textual representation *)

Lemma Inspect_Some_defined Sprintf_v (o : Object) :
  is_Some (Object_Inspect Sprintf_v o) -> defined o = true.
Proof.
  induction o as [| | | | | | | | | els IH | pairs IH]
    using Object_nested_ind; simpl; intros Hs; try done.
  - match type of Hs with
    | is_Some (match ?r with _ => _ end) =>
        assert (H : is_Some r) by (destruct r; [eauto | by destruct Hs])
    end.
    clear Hs. induction els as [|x els IHels]; [done|].
    inversion IH as [|? ? Hpx Hpels]; subst. simpl.
    destruct (Object_Inspect Sprintf_v x) as [s|] eqn:Hx;
      [|by destruct H].
    rewrite Hpx by eauto. simpl. apply IHels; [done|].
    match type of H with
    | is_Some (option_map _ ?r) => destruct r; [eauto | by destruct H]
    end.
  - match type of Hs with
    | is_Some (match ?r with _ => _ end) =>
        assert (H : is_Some r) by (destruct r; [eauto | by destruct Hs])
    end.
    clear Hs. induction pairs as [|[hk [k v]] pairs IHpairs]; [done|].
    inversion IH as [|? ? [Hpk Hpv] Hps]; subst. simpl in *.
    destruct (Object_Inspect Sprintf_v k) as [ks|] eqn:Hk;
      [|by destruct H].
    destruct (Object_Inspect Sprintf_v v) as [vs|] eqn:Hv;
      [|by destruct H].
    rewrite Hpk, Hpv by eauto. simpl. apply IHpairs; [done|].
    match type of H with
    | is_Some (option_map _ ?r) => destruct r; [eauto | by destruct H]
    end.
Qed.

(** [Inspect] panics exactly on the objects that hold nil: nil itself, an
    array with such an element, a hash with such a key or value. The value
    wrapped in a ReturnValue is never called, so it may be nil. *)
Theorem Inspect_panics_exactly_on_nil :
  forall (Sprintf_v : Object -> string) (o : Object),
    (is_Some (Object_Inspect Sprintf_v o) <-> defined o = true) /\
    is_Some (Object_Inspect Sprintf_v (ReturnValue nil_Object)) /\
    Object_Inspect Sprintf_v (Array [Integer 1; nil_Object]) = None.
Proof.
  intros Sprintf_v o. split; [|split; [by eauto | reflexivity]].
  split; [apply Inspect_Some_defined | apply Inspect_defined].
Qed.

Lemma fmt_d_reads_back (i : Z) :
  option_map Z.of_int (NilZero.int_of_string (fmt_d i)) = Some i.
Proof.
  unfold fmt_d. rewrite NilZero.isi.
  - simpl. by rewrite DecimalZ.of_to.
  - destruct i; simpl; try discriminate.
    intros [= H]. by destruct (DecimalPos.Unsigned.to_uint_nonnil p).
  - destruct i; simpl; try discriminate.
    intros [= H]. by destruct (DecimalPos.Unsigned.to_uint_nonnil p).
Qed.

(** The text of an Integer is a decimal numeral that reads back as the
    value of the Integer; two Integers of the same text are the same. *)
Theorem Integer_Inspect_reads_back :
  forall (Sprintf_v : Object -> string) (i j : Z),
    (exists text,
       Object_Inspect Sprintf_v (Integer i) = Some text /\
       option_map Z.of_int (NilZero.int_of_string text) = Some i) /\
    (Object_Inspect Sprintf_v (Integer i) = Object_Inspect Sprintf_v (Integer j)
     <-> i = j).
Proof.
  intros Sprintf_v i j. split.
  - exists (fmt_d i). split; [reflexivity | apply fmt_d_reads_back].
  - split; [|by intros ->]. simpl. intros [= H].
    pose proof (fmt_d_reads_back i) as Hi.
    rewrite H, fmt_d_reads_back in Hi. by injection Hi as ->.
Qed.

(** ** The builtins: how they compose *)

(** The length that [len] reports follows [push] and [rest]: one more after
    a [push], one fewer after a [rest] of a non-empty array (lengths fit an
    [int64]). *)
Theorem len_follows_push_and_rest :
  forall (a : list Object) (x : Object) (out : list string),
    len a + 1 < 2 ^ 63 ->
    builtin_len [Array a] out = (Returns (Integer (len a)), out) /\
    (r ← builtin_push [Array a; x]; builtin_len [r]) out
      = (Returns (Integer (len a + 1)), out) /\
    (a ≠ [] ->
     (r ← builtin_rest [Array a]; builtin_len [r]) out
       = (Returns (Integer (len a - 1)), out)).
Proof.
  intros a x out Ha. pose proof (len_nonneg a) as Hn.
  split; [|split].
  - rewrite len_Array, int64_small; [done | lia].
  - erewrite bind_Returns by apply push_Array.
    assert (E : len (a ++ [x]) = len a + 1)
      by (unfold len; rewrite length_app; simpl; lia).
    rewrite len_Array, E, int64_small; [done | lia].
  - intros Hne. destruct a as [|y t]; [done|].
    erewrite bind_Returns by apply rest_Array.
    rewrite len_cons in *. pose proof (len_nonneg t).
    rewrite len_Array, int64_small; [f_equal; f_equal; f_equal; lia | lia].
Qed.

Lemma len_follows_push_and_rest_witness :
  len [Integer 1; Integer 2] + 1 < 2 ^ 63 /\
  (r ← builtin_push [Array [Integer 1; Integer 2]; Integer 3];
   builtin_len [r]) [] = (Returns (Integer 3), []) /\
  [Integer 1; Integer 2] ≠ [] /\
  (r ← builtin_rest [Array [Integer 1; Integer 2]]; builtin_len [r]) []
    = (Returns (Integer 1), []).
Proof.
  assert (H : len [Integer 1; Integer 2] + 1 < 2 ^ 63)
    by (vm_compute; reflexivity).
  assert (Hne : [Integer 1; Integer 2] ≠ []) by discriminate.
  split; [exact H|]. split; [|split; [exact Hne|]].
  - exact (proj1 (proj2 (len_follows_push_and_rest
                           [Integer 1; Integer 2] (Integer 3) [] H))).
  - exact (proj2 (proj2 (len_follows_push_and_rest
                           [Integer 1; Integer 2] (Integer 3) [] H)) Hne).
Defined.

(** After a [push] of x onto a, [last] gives x back, and [first] gives the
    first element of a, or x when a was empty. *)
Theorem first_and_last_after_push :
  forall (a : list Object) (x : Object) (out : list string),
    (r ← builtin_push [Array a; x]; builtin_last [r]) out = (Returns x, out) /\
    (r ← builtin_push [Array a; x]; builtin_first [r]) out
      = (Returns (match a with [] => x | y :: _ => y end), out).
Proof.
  intros a x out. split.
  - erewrite bind_Returns by apply push_Array.
    by rewrite last_Array, last_snoc.
  - erewrite bind_Returns by apply push_Array.
    rewrite first_Array. by destruct a.
Qed.

(** On a non-empty array [rest] and [push] commute: the rest of the array
    pushed onto is the rest pushed onto. On the empty array they do not:
    [rest] gives NULL, onto which [push] reports an error, while the rest
    of the one-element array that [push] makes is the empty array. *)
Theorem rest_and_push :
  forall (a : list Object) (x : Object) (out : list string),
    (a ≠ [] ->
     (r ← builtin_rest [Array a]; builtin_push [r; x]) out
       = (Returns (Array (tail a ++ [x])), out) /\
     (r ← builtin_push [Array a; x]; builtin_rest [r]) out
       = (Returns (Array (tail a ++ [x])), out)) /\
    (r ← builtin_rest [Array []]; builtin_push [r; x]) out
      = (Returns (Error "argument to `push` must be ARRAY, got NULL"), out) /\
    (r ← builtin_push [Array []; x]; builtin_rest [r]) out
      = (Returns (Array []), out).
Proof.
  intros a x out. split; [|split].
  - intros Hne. destruct a as [|y t]; [done|]. split.
    + erewrite bind_Returns by apply rest_Array. apply push_Array.
    + erewrite bind_Returns by apply push_Array. apply rest_Array.
  - erewrite bind_Returns by apply rest_Array. reflexivity.
  - erewrite bind_Returns by apply push_Array. apply rest_Array.
Qed.

Lemma rest_and_push_witness :
  [Integer 1; Integer 2] ≠ [] /\
  (r ← builtin_rest [Array [Integer 1; Integer 2]];
   builtin_push [r; Integer 3]) []
    = (Returns (Array [Integer 2; Integer 3]), []).
Proof.
  assert (Hne : [Integer 1; Integer 2] ≠ []) by discriminate.
  split; [exact Hne|].
  exact (proj1 (proj1 (rest_and_push [Integer 1; Integer 2] (Integer 3) [])
                  Hne)).
Defined.

(** ** The builtins: the table, and what a call writes *)

Ltac wrong_count :=
  first [ progress unfold builtin_len | progress unfold builtin_first
        | progress unfold builtin_last | progress unfold builtin_rest
        | progress unfold builtin_push ];
  rewrite bool_decide_true by done.

(** A builtin that asks for a number of arguments and gets another returns
    an Error and nothing else happens, whatever the arguments are: nil
    arguments included, the count is tested before any argument is
    touched. *)
Theorem wrong_count_is_an_Error :
  forall (Sprintf_v : Object -> string) (name : string)
         (fn : BuiltInFunction) (n : Z) (args : list Object)
         (out : list string),
    builtins Sprintf_v !! name = Some fn ->
    wants name = Some n -> len args ≠ n ->
    exists m, fn args out = (Returns (Error m), out).
Proof.
  intros Sprintf_v name fn n args out H Hw Hn.
  apply builtins_lookup in H
    as [[-> ->]|[[-> ->]|[[-> ->]|[[-> ->]|[[-> ->]|[-> ->]]]]]];
    [discriminate Hw|..]; injection Hw as <-; wrong_count; eauto.
Qed.

Lemma wrong_count_is_an_Error_witness :
  builtins (fun _ => "<nil>") !! "first" = Some builtin_first /\
  wants "first" = Some 1 /\ len [nil_Object; nil_Object] ≠ 1 /\
  exists m, builtin_first [nil_Object; nil_Object] [] = (Returns (Error m), []).
Proof.
  assert (H1 : builtins (fun _ => "<nil>") !! "first" = Some builtin_first)
    by reflexivity.
  assert (H2 : wants "first" = Some 1) by reflexivity.
  assert (H3 : len [nil_Object; nil_Object] ≠ 1) by discriminate.
  split; [exact H1|]. split; [exact H2|]. split; [exact H3|].
  exact (wrong_count_is_an_Error (fun _ => "<nil>") "first" builtin_first 1
           [nil_Object; nil_Object] [] H1 H2 H3).
Defined.

Lemma len_writes_nothing args out : snd (builtin_len args out) = out.
Proof.
  destruct (decide (len args = 1)) as [Hlen|Hlen].
  - apply len_1 in Hlen as [a ->]. destruct a; reflexivity.
  - wrong_count. reflexivity.
Qed.

Lemma first_writes_nothing args out : snd (builtin_first args out) = out.
Proof.
  destruct (decide (len args = 1)) as [Hlen|Hlen].
  - apply len_1 in Hlen as [a ->].
    destruct a; try reflexivity. by rewrite first_Array.
  - wrong_count. reflexivity.
Qed.

Lemma last_writes_nothing args out : snd (builtin_last args out) = out.
Proof.
  destruct (decide (len args = 1)) as [Hlen|Hlen].
  - apply len_1 in Hlen as [a ->].
    destruct a; try reflexivity. by rewrite last_Array.
  - wrong_count. reflexivity.
Qed.

Lemma rest_writes_nothing args out : snd (builtin_rest args out) = out.
Proof.
  destruct (decide (len args = 1)) as [Hlen|Hlen].
  - apply len_1 in Hlen as [a ->].
    destruct a; try reflexivity. by rewrite rest_Array.
  - wrong_count. reflexivity.
Qed.

Lemma push_writes_nothing args out : snd (builtin_push args out) = out.
Proof.
  destruct (decide (len args = 2)) as [Hlen|Hlen].
  - apply len_2 in Hlen as (a & b & ->).
    destruct a; try reflexivity. by rewrite push_Array.
  - wrong_count. reflexivity.
Qed.

(** Of the builtins only [puts] writes: a call of any other one leaves the
    output as it was, whatever the arguments and whether it returns or
    panics. *)
Theorem only_puts_writes :
  forall (Sprintf_v : Object -> string) (name : string)
         (fn : BuiltInFunction) (args : list Object) (out : list string),
    builtins Sprintf_v !! name = Some fn ->
    name ≠ "puts" ->
    snd (fn args out) = out.
Proof.
  intros Sprintf_v name fn args out H Hne.
  apply builtins_lookup in H
    as [[-> ->]|[[-> ->]|[[-> ->]|[[-> ->]|[[-> ->]|[-> ->]]]]]].
  - done.
  - apply len_writes_nothing.
  - apply first_writes_nothing.
  - apply last_writes_nothing.
  - apply rest_writes_nothing.
  - apply push_writes_nothing.
Qed.

Lemma only_puts_writes_witness :
  builtins (fun _ => "<nil>") !! "rest" = Some builtin_rest /\
  "rest" ≠ "puts" /\
  snd (builtin_rest [nil_Object] ["earlier"]) = ["earlier"].
Proof.
  assert (H1 : builtins (fun _ => "<nil>") !! "rest" = Some builtin_rest)
    by reflexivity.
  assert (H2 : "rest" ≠ "puts") by discriminate.
  split; [exact H1|]. split; [exact H2|].
  exact (only_puts_writes (fun _ => "<nil>") "rest" builtin_rest
           [nil_Object] ["earlier"] H1 H2).
Defined.

Lemma puts_range_prints Sprintf_v args : forall texts out,
  Forall2 (fun a t => Object_Inspect Sprintf_v a = Some t) args texts ->
  puts_range Sprintf_v args out =
  (Returns tt, (out ++ map (fun t => (t ++ newline)%string) texts)%list).
Proof.
  induction args as [|arg args IH]; intros texts out H;
    inversion H as [|? t ? ts Ht Hts]; subst; cbn [puts_range map].
  - by rewrite app_nil_r.
  - rewrite Ht. erewrite bind_Returns by reflexivity.
    erewrite bind_Returns by reflexivity.
    rewrite (IH ts) by done. by rewrite <- app_assoc.
Qed.

Lemma puts_range_app Sprintf_v pre post out :
  puts_range Sprintf_v (pre ++ post) out =
  (_ ← puts_range Sprintf_v pre; puts_range Sprintf_v post) out.
Proof.
  revert out. induction pre as [|arg pre IH]; intros out; [done|].
  cbn [app puts_range]. rewrite bind_assoc.
  apply bind_ext; [done|]. intros s o. rewrite bind_assoc.
  apply bind_ext; [done|]. intros [] o'. apply IH.
Qed.

(** [puts] writes the text of every argument, each followed by a newline,
    in the order of the arguments and after what was written before, and
    returns NULL. When the text of an argument cannot be made, the
    arguments before it have been written when the call panics, and none
    after it. *)
Theorem puts_writes_in_order :
  forall (Sprintf_v : Object -> string) (args post : list Object)
         (bad : Object) (texts : list string) (out : list string),
    Forall2 (fun a t => Object_Inspect Sprintf_v a = Some t) args texts ->
    builtin_puts Sprintf_v args out
      = (Returns NULL,
         (out ++ map (fun t => (t ++ newline)%string) texts)%list) /\
    (Object_Inspect Sprintf_v bad = None ->
     builtin_puts Sprintf_v (args ++ bad :: post)%list out
       = (Panics NilDereference,
          (out ++ map (fun t => (t ++ newline)%string) texts)%list)).
Proof.
  intros Sprintf_v args post bad texts out H. split.
  - unfold builtin_puts.
    by erewrite bind_Returns by (by apply puts_range_prints).
  - intros Hbad. unfold builtin_puts.
    erewrite bind_Panics; [reflexivity|].
    rewrite puts_range_app.
    erewrite bind_Returns by (by apply puts_range_prints).
    cbn [puts_range]. rewrite Hbad.
    by erewrite bind_Panics by reflexivity.
Qed.

Lemma puts_writes_in_order_witness :
  Forall2 (fun a t => Object_Inspect (fun _ => "<nil>") a = Some t)
    [Integer 1; String "two"] ["1"; "two"] /\
  builtin_puts (fun _ => "<nil>") [Integer 1; String "two"] ["earlier"]
    = (Returns NULL, ["earlier"; "1" ++ newline; "two" ++ newline]) /\
  Object_Inspect (fun _ => "<nil>") nil_Object = None /\
  builtin_puts (fun _ => "<nil>")
    ([Integer 1; String "two"] ++ nil_Object :: [Integer 3])%list
    ["earlier"]
    = (Panics NilDereference, ["earlier"; "1" ++ newline; "two" ++ newline]).
Proof.
  assert (H : Forall2 (fun a t => Object_Inspect (fun _ => "<nil>") a = Some t)
                [Integer 1; String "two"] ["1"; "two"])
    by (repeat constructor).
  assert (Hbad : Object_Inspect (fun _ => "<nil>") nil_Object = None)
    by reflexivity.
  split; [exact H|]. split; [|split; [exact Hbad|]].
  - exact (proj1 (puts_writes_in_order (fun _ => "<nil>") _ [Integer 3]
                    nil_Object _ ["earlier"] H)).
  - exact (proj2 (puts_writes_in_order (fun _ => "<nil>") _ [Integer 3]
                    nil_Object _ ["earlier"] H) Hbad).
Defined.

(** ** The memory behind [rest] and behind repeated calls of [push] *)

Section MemoryMore.

Context {V : Type} (zero : V).
Implicit Types (h : gmap positive (list V)) (s : memory.slice).

Lemma read_slice_from h s s' a low :
  memory.read h s = Some a ->
  memory.mem_slice_from s low = Some s' ->
  memory.read h s' = Some (drop low a).
Proof.
  unfold memory.read, memory.mem_slice_from.
  destruct (h !! memory.base s) as [cells|] eqn:Hc; [|done].
  case_decide as Hb; [|done]. intros [= <-].
  case_decide as Hlow; [|done]. intros [= <-]. simpl. rewrite Hc.
  rewrite decide_True by lia. f_equal.
  rewrite (take_drop_commute cells (memory.size s)), drop_drop.
  rewrite take_drop_commute. do 2 f_equal. lia.
Qed.

Lemma rest_Elements_eq h s x t :
  memory.read h s = Some (x :: t) ->
  memory.rest_Elements zero h s =
  Some (Some {| memory.base := fresh (dom h); memory.off := 0;
                memory.size := memory.size s - 1 |},
        <[fresh (dom h) := t]> h).
Proof.
  intros Hr. pose proof (read_length _ _ _ Hr) as Hlen. simpl in Hlen.
  assert (Hne : memory.base s ≠ fresh (dom h)).
  { intros Heq. destruct (read_allocated _ _ _ Hr) as [c Hc].
    rewrite Heq, fresh_unallocated in Hc. discriminate. }
  unfold memory.rest_Elements, memory.mem_make. cbv zeta.
  rewrite decide_False by lia.
  destruct (memory.mem_slice_from s 1) as [tail|] eqn:Htail.
  2:{ unfold memory.mem_slice_from in Htail.
      rewrite decide_True in Htail by lia. discriminate. }
  pose proof (read_slice_from _ _ _ _ _ Hr Htail) as Ht.
  change (drop 1 (x :: t)) with t in Ht.
  assert (Hbt : memory.base tail = memory.base s).
  { unfold memory.mem_slice_from in Htail. case_decide; [|done].
    by injection Htail as <-. }
  unfold memory.mem_copy.
  rewrite read_whole by (by rewrite length_replicate).
  rewrite read_insert_ne, Ht by congruence.
  rewrite overwrite_whole by (by rewrite length_replicate).
  rewrite copy_replicate by lia.
  replace (memory.size s - 1 - length t)%nat with 0%nat by lia.
  simpl. by rewrite app_nil_r.
Qed.

End MemoryMore.

(** In memory, [rest] of a non-empty array copies: the slice of the array
    it returns lies in a backing array allocated by the call, which reads
    as the elements after the head, and every backing array that existed
    before, that of the argument among them, is unchanged: the result is no
    window on the argument. On the empty array nothing is allocated. *)
Theorem rest_copies :
  forall (a : list Object) (h : gmap positive (list Object))
         (Elements : memory.slice),
    memory.read h Elements = Some a ->
    match a with
    | [] => memory.rest_Elements nil_Object h Elements = Some (None, h)
    | x :: t =>
        exists (newElements : memory.slice) (h' : gmap positive (list Object)),
          memory.rest_Elements nil_Object h Elements
            = Some (Some newElements, h') /\
          memory.read h' newElements = Some t /\
          memory.read h' Elements = Some a /\
          memory.base newElements ≠ memory.base Elements /\
          h !! memory.base newElements = None /\
          forall p cells, h !! p = Some cells -> h' !! p = Some cells
    end.
Proof.
  intros a h Elements Hr. destruct a as [|x t].
  - unfold memory.rest_Elements. cbv zeta.
    pose proof (read_length _ _ _ Hr) as Hlen. simpl in Hlen.
    rewrite decide_True by lia. done.
  - eexists _, _. split; [by eapply rest_Elements_eq|].
    assert (Hne : forall p cells, h !! p = Some cells -> p ≠ fresh (dom h)).
    { intros p cells Hp ->. rewrite fresh_unallocated in Hp. discriminate. }
    destruct (read_allocated _ _ _ Hr) as [c Hc].
    pose proof (read_length _ _ _ Hr) as Hlen. simpl in Hlen.
    split; [|split; [|split; [|split]]].
    + apply read_whole. lia.
    + rewrite read_insert_ne; [done | by eapply Hne].
    + simpl. intros Heq. eapply Hne; [exact Hc | done].
    + apply fresh_unallocated.
    + intros p cells Hp. rewrite lookup_insert_ne; [done|].
      intros Heq. by eapply Hne.
Qed.

Lemma rest_copies_witness :
  memory.read ({[ 1%positive := [Integer 1; Integer 2] ]}
                 : gmap positive (list Object))
    {| memory.base := 1%positive; memory.off := 0; memory.size := 2 |}
  = Some [Integer 1; Integer 2] /\
  exists (newElements : memory.slice) (h' : gmap positive (list Object)),
    memory.rest_Elements nil_Object {[ 1%positive := [Integer 1; Integer 2] ]}
      {| memory.base := 1%positive; memory.off := 0; memory.size := 2 |}
      = Some (Some newElements, h') /\
    memory.read h' newElements = Some [Integer 2] /\
    memory.read h'
      {| memory.base := 1%positive; memory.off := 0; memory.size := 2 |}
      = Some [Integer 1; Integer 2] /\
    memory.base newElements ≠ 1%positive /\
    ({[ 1%positive := [Integer 1; Integer 2] ]}
       : gmap positive (list Object)) !! memory.base newElements = None /\
    forall p cells,
      ({[ 1%positive := [Integer 1; Integer 2] ]}
         : gmap positive (list Object)) !! p = Some cells ->
      h' !! p = Some cells.
Proof.
  assert (Hr : memory.read ({[ 1%positive := [Integer 1; Integer 2] ]}
                              : gmap positive (list Object))
                 {| memory.base := 1%positive; memory.off := 0;
                    memory.size := 2 |}
               = Some [Integer 1; Integer 2])
    by (vm_compute; reflexivity).
  split; [exact Hr|].
  exact (rest_copies [Integer 1; Integer 2] _ _ Hr).
Defined.

(** Two calls of [push] on the same array give two arrays that share no
    memory with each other or with the argument: after the second call the
    result of the first still reads as the argument followed by the first
    pushed object, the result of the second as the argument followed by the
    second, and the argument as before. *)
Theorem pushes_are_independent :
  forall (a : list Object) (x y : Object)
         (h : gmap positive (list Object)) (Elements : memory.slice),
    memory.read h Elements = Some a ->
    exists (first second : memory.slice)
           (h1 h2 : gmap positive (list Object)),
      memory.push_Elements nil_Object h Elements x = Some (first, h1) /\
      memory.push_Elements nil_Object h1 Elements y = Some (second, h2) /\
      memory.base first ≠ memory.base second /\
      memory.read h2 first = Some (a ++ [x])%list /\
      memory.read h2 second = Some (a ++ [y])%list /\
      memory.read h2 Elements = Some a.
Proof.
  intros a x y h Elements Hr.
  pose proof (read_length _ _ _ Hr) as Hlen.
  destruct (read_allocated _ _ _ Hr) as [c Hc].
  assert (Hne : memory.base Elements ≠ fresh (dom h)).
  { intros Heq. rewrite Heq, fresh_unallocated in Hc. discriminate. }
  set (h1 := <[fresh (dom h) := (a ++ [x])%list]> h).
  assert (Hr1 : memory.read h1 Elements = Some a).
  { unfold h1. by rewrite read_insert_ne. }
  assert (Hne1 : memory.base Elements ≠ fresh (dom h1)).
  { intros Heq. destruct (read_allocated _ _ _ Hr1) as [c1 Hc1].
    rewrite Heq, fresh_unallocated in Hc1. discriminate. }
  assert (Hne2 : fresh (dom h) ≠ fresh (dom h1)).
  { intros Heq. pose proof (fresh_unallocated h1) as Hf.
    rewrite <- Heq in Hf. unfold h1 in Hf.
    rewrite lookup_insert_eq in Hf. discriminate. }
  eexists _, _, _, _.
  split; [by apply push_Elements_eq|].
  split; [by apply push_Elements_eq|].
  split; [done|]. split; [|split].
  - rewrite read_insert_ne by done. unfold h1.
    apply read_whole. rewrite length_app; simpl. lia.
  - apply read_whole. rewrite length_app; simpl. lia.
  - by rewrite read_insert_ne.
Qed.

Lemma pushes_are_independent_witness :
  memory.read ({[ 1%positive := [Integer 1; Integer 2] ]}
                 : gmap positive (list Object))
    {| memory.base := 1%positive; memory.off := 0; memory.size := 2 |}
  = Some [Integer 1; Integer 2] /\
  exists (first second : memory.slice)
         (h1 h2 : gmap positive (list Object)),
    memory.push_Elements nil_Object
      {[ 1%positive := [Integer 1; Integer 2] ]}
      {| memory.base := 1%positive; memory.off := 0; memory.size := 2 |}
      (Integer 3) = Some (first, h1) /\
    memory.push_Elements nil_Object h1
      {| memory.base := 1%positive; memory.off := 0; memory.size := 2 |}
      (Integer 4) = Some (second, h2) /\
    memory.base first ≠ memory.base second /\
    memory.read h2 first = Some [Integer 1; Integer 2; Integer 3] /\
    memory.read h2 second = Some [Integer 1; Integer 2; Integer 4] /\
    memory.read h2
      {| memory.base := 1%positive; memory.off := 0; memory.size := 2 |}
      = Some [Integer 1; Integer 2].
Proof.
  assert (Hr : memory.read ({[ 1%positive := [Integer 1; Integer 2] ]}
                              : gmap positive (list Object))
                 {| memory.base := 1%positive; memory.off := 0;
                    memory.size := 2 |}
               = Some [Integer 1; Integer 2])
    by (vm_compute; reflexivity).
  split; [exact Hr|].
  exact (pushes_are_independent [Integer 1; Integer 2] (Integer 3) (Integer 4)
           _ _ Hr).
Defined.

(** ** The REPL: parser errors and panics *)

(** [printParserErrors] cannot fail. After what was written before, it
    writes the banner in three pieces and then one piece per error, in the
    order of the list: a tab, the error, a newline. *)
Theorem printParserErrors_writes_every_error :
  forall (errors : list string) (out : list string),
    repl.printParserErrors errors out
      = (Returns tt, (out ++ report errors)%list) /\
    length (report errors) = (3 + length errors)%nat /\
    take 3 (report errors)
      = [ repl.MONKEY_FACE;
          "Whoos! We ran into some monkey business here!" ++ newline;
          " parser errors:" ++ newline ] /\
    drop 3 (report errors) = map (fun err => tab ++ err ++ newline) errors.
Proof.
  intros errors out. split; [apply printParserErrors_out|].
  unfold report. split; [|split].
  - rewrite length_app, length_map. reflexivity.
  - reflexivity.
  - reflexivity.
Qed.

Section ReplMore.

Variable Sprintf_v : Object -> string.
Variables Lexer Parser Program : Type.
Variable lexer_New : string -> Lexer.
Variable parser_New : Lexer -> Parser.
Variable ParseProgram : Parser -> Program * Parser.
Variable Errors : Parser -> list string.
Variable Eval : Program -> Environment -> Go (Object * Environment).

Local Abbreviation loop :=
  (repl.loop Sprintf_v Lexer Parser Program lexer_New parser_New
     ParseProgram Errors Eval).

Lemma loop_unparsable lines : forall env out,
  Forall (fun line =>
            Errors (snd (ParseProgram (parser_New (lexer_New line)))) ≠ [])
         lines ->
  loop env lines out =
  (Returns env,
   (out ++
    concat (map (fun line =>
                   repl.PROMPT ::
                   report (Errors (snd (ParseProgram
                                          (parser_New (lexer_New line))))))
                lines)
    ++ [repl.PROMPT])%list).
Proof.
  induction lines as [|line lines IH]; intros env out H.
  - reflexivity.
  - inversion H as [|? ? Hline Hlines]; subst.
    rewrite loop_step. erewrite bind_Returns by reflexivity.
    unfold spec.line_step. cbn [map concat].
    destruct (ParseProgram (parser_New (lexer_New line))) as [program p].
    simpl in Hline. simpl snd.
    destruct (Errors p) as [|err errors] eqn:He; [done|].
    erewrite bind_Returns by reflexivity.
    rewrite IH by done. f_equal.
    rewrite <- !app_assoc. reflexivity.
Qed.

Lemma loop_Eval_panics env line lines out program p why o :
  ParseProgram (parser_New (lexer_New line)) = (program, p) ->
  Errors p = [] ->
  Eval program env (out ++ [repl.PROMPT])%list = (Panics why, o) ->
  loop env (line :: lines) out = (Panics why, o).
Proof.
  intros Hp He Hev. rewrite loop_step.
  erewrite bind_Returns by reflexivity.
  erewrite bind_Panics; [reflexivity|].
  unfold spec.line_step. rewrite Hp, He.
  by erewrite bind_Panics by apply Hev.
Qed.

End ReplMore.

(** A session in which no line parses evaluates nothing: whatever the
    evaluator, [Start] returns with the environment it created, untouched,
    having written for every line a prompt and the report of the errors of
    that line, and a last prompt. *)
Theorem unparsable_lines_are_not_evaluated :
  forall (Sprintf_v : Object -> string) (Lexer Parser Program : Type)
         (lexer_New : string -> Lexer) (parser_New : Lexer -> Parser)
         (ParseProgram : Parser -> Program * Parser)
         (Errors : Parser -> list string)
         (Eval : Program -> Environment -> Go (Object * Environment))
         (lines : list string) (out : list string),
    Forall (fun line =>
              Errors (snd (ParseProgram (parser_New (lexer_New line)))) ≠ [])
           lines ->
    repl.Start Sprintf_v Lexer Parser Program lexer_New parser_New
      ParseProgram Errors Eval lines out =
    (Returns NewEnvironment,
     (out ++
      concat (map (fun line =>
                     repl.PROMPT ::
                     report (Errors (snd (ParseProgram
                                            (parser_New (lexer_New line))))))
                  lines)
      ++ [repl.PROMPT])%list).
Proof.
  intros. unfold repl.Start. cbv zeta. by apply loop_unparsable.
Qed.

Lemma unparsable_lines_are_not_evaluated_witness :
  Forall (fun line : string =>
            (fun p : string => ["no prefix parse function"])
              (snd ((fun p : string => (p, p))
                      ((fun l : string => l) ((fun s : string => s) line))))
            ≠ [])
         ["@"; "#"] /\
  fst (repl.Start (fun _ => "<nil>") string string string
         (fun s => s) (fun l => l) (fun p => (p, p))
         (fun p => ["no prefix parse function"])
         (fun program env => panic NilDereference)
         ["@"; "#"] [])
  = Returns NewEnvironment.
Proof.
  assert (H : Forall (fun line : string =>
            (fun p : string => ["no prefix parse function"])
              (snd ((fun p : string => (p, p))
                      ((fun l : string => l) ((fun s : string => s) line))))
            ≠ [])
         ["@"; "#"]) by (repeat constructor; discriminate).
  split; [exact H|].
  exact (f_equal fst
           (unparsable_lines_are_not_evaluated (fun _ => "<nil>")
              string string string
              (fun s => s) (fun l => l) (fun p => (p, p))
              (fun p => ["no prefix parse function"])
              (fun program env => panic NilDereference)
              ["@"; "#"] [] H)).
Defined.

(** The REPL does not recover from a panic: when the evaluation of a line
    that parsed panics, the loop stops there with that panic, nothing more
    is written and the lines after it are never read. *)
Theorem a_panic_ends_the_session :
  forall (Sprintf_v : Object -> string) (Lexer Parser Program : Type)
         (lexer_New : string -> Lexer) (parser_New : Lexer -> Parser)
         (ParseProgram : Parser -> Program * Parser)
         (Errors : Parser -> list string)
         (Eval : Program -> Environment -> Go (Object * Environment))
         (env : Environment) (line : string) (lines : list string)
         (out : list string) (program : Program) (p : Parser)
         (why : cause) (o : list string),
    ParseProgram (parser_New (lexer_New line)) = (program, p) ->
    Errors p = [] ->
    Eval program env (out ++ [repl.PROMPT])%list = (Panics why, o) ->
    repl.loop Sprintf_v Lexer Parser Program lexer_New parser_New
      ParseProgram Errors Eval env (line :: lines) out
    = (Panics why, o).
Proof. intros. by eapply loop_Eval_panics. Qed.

Lemma a_panic_ends_the_session_witness :
  (fun p : string => (p, p)) ((fun l : string => l) ((fun s : string => s) "f()"))
    = ("f()", "f()") /\
  (fun p : string => @nil string) "f()" = [] /\
  (fun (program : string) (env : Environment) =>
     @panic (Object * Environment) IndexOutOfRange)
    "f()" NewEnvironment ([] ++ [repl.PROMPT])%list
    = (Panics IndexOutOfRange, [repl.PROMPT]) /\
  repl.loop (fun _ => "<nil>") string string string
    (fun s => s) (fun l => l) (fun p => (p, p)) (fun p => [])
    (fun program env => panic IndexOutOfRange)
    NewEnvironment ["f()"; "1"] []
  = (Panics IndexOutOfRange, [repl.PROMPT]).
Proof.
  split; [reflexivity|]. split; [reflexivity|]. split; [reflexivity|].
  exact (a_panic_ends_the_session (fun _ => "<nil>") string string string
           (fun s => s) (fun l => l) (fun p => (p, p)) (fun p => [])
           (fun program env => panic IndexOutOfRange)
           NewEnvironment "f()" ["1"] [] "f()" "f()" IndexOutOfRange
           [repl.PROMPT] eq_refl eq_refl eq_refl).
Defined.

(** ** The builtins: when a call panics *)

Ltac returns_so_no_panic :=
  split;
  [ intros (why & out' & H);
    first [ rewrite first_Array in H | rewrite last_Array in H
          | rewrite rest_Array in H | rewrite push_Array in H
          | rewrite len_Array in H | rewrite len_String in H | idtac ];
    discriminate H
  | intros [_ [=]] ].

Ltac panics_on_nil_argument :=
  split; [ intros _; split; reflexivity
         | intros _; eexists _, _; reflexivity ].

Ltac wrong_count_so_no_panic Hlen :=
  split;
  [ intros (why & out' & H); revert H; wrong_count; discriminate
  | intros [Hl _]; exfalso; by apply Hlen ].

Lemma first_panics_iff args out :
  (exists why out', builtin_first args out = (Panics why, out')) <->
  len args = 1 /\ head args = Some nil_Object.
Proof.
  destruct (decide (len args = 1)) as [Hlen|Hlen].
  - apply len_1 in Hlen as [a ->].
    destruct a; first [panics_on_nil_argument | returns_so_no_panic].
  - wrong_count_so_no_panic Hlen.
Qed.

Lemma last_panics_iff args out :
  (exists why out', builtin_last args out = (Panics why, out')) <->
  len args = 1 /\ head args = Some nil_Object.
Proof.
  destruct (decide (len args = 1)) as [Hlen|Hlen].
  - apply len_1 in Hlen as [a ->].
    destruct a; first [panics_on_nil_argument | returns_so_no_panic].
  - wrong_count_so_no_panic Hlen.
Qed.

Lemma rest_panics_iff args out :
  (exists why out', builtin_rest args out = (Panics why, out')) <->
  len args = 1 /\ head args = Some nil_Object.
Proof.
  destruct (decide (len args = 1)) as [Hlen|Hlen].
  - apply len_1 in Hlen as [a ->].
    destruct a; first [panics_on_nil_argument | returns_so_no_panic].
  - wrong_count_so_no_panic Hlen.
Qed.

Lemma len_panics_iff args out :
  (exists why out', builtin_len args out = (Panics why, out')) <->
  len args = 1 /\ head args = Some nil_Object.
Proof.
  destruct (decide (len args = 1)) as [Hlen|Hlen].
  - apply len_1 in Hlen as [a ->].
    destruct a; first [panics_on_nil_argument | returns_so_no_panic].
  - wrong_count_so_no_panic Hlen.
Qed.

Lemma push_panics_iff args out :
  (exists why out', builtin_push args out = (Panics why, out')) <->
  len args = 2 /\ head args = Some nil_Object.
Proof.
  destruct (decide (len args = 2)) as [Hlen|Hlen].
  - apply len_2 in Hlen as (a & b & ->).
    destruct a; first [panics_on_nil_argument | returns_so_no_panic].
  - wrong_count_so_no_panic Hlen.
Qed.

Lemma puts_range_panics_iff Sprintf_v args : forall out,
  (exists why out', puts_range Sprintf_v args out = (Panics why, out')) <->
  Exists (fun a => defined a = false) args.
Proof.
  induction args as [|arg args IH]; intros out; cbn [puts_range].
  - split; [intros (why & out' & H); discriminate H | intros H; inversion H].
  - rewrite Exists_cons.
    destruct (Object_Inspect Sprintf_v arg) as [s|] eqn:Hs.
    + assert (Hd : defined arg = true)
        by (eapply Inspect_Some_defined; eauto).
      erewrite bind_Returns by reflexivity.
      erewrite bind_Returns by reflexivity.
      rewrite IH. split; [by right | intros [Hf|H]; [congruence | done]].
    + erewrite bind_Panics by reflexivity. split; [|by eauto].
      intros _. left. destruct (defined arg) eqn:Hd; [|done].
      destruct (Inspect_defined Sprintf_v arg Hd) as [s Hs']. congruence.
Qed.

Lemma puts_panics_iff Sprintf_v args out :
  (exists why out', builtin_puts Sprintf_v args out = (Panics why, out')) <->
  Exists (fun a => defined a = false) args.
Proof.
  rewrite <- (puts_range_panics_iff Sprintf_v args out). unfold builtin_puts.
  destruct (puts_range Sprintf_v args out) as [[[]|why] o] eqn:Hr.
  - erewrite bind_Returns by apply Hr.
    split; intros (w & o' & H); discriminate H.
  - erewrite bind_Panics by apply Hr. split; intros _; eauto.
Qed.

Lemma builtins_panic_cause Sprintf_v name fn args out :
  builtins Sprintf_v !! name = Some fn ->
  panics_on_nil_only fn args out.
Proof.
  intros H.
  apply builtins_lookup in H
    as [[-> ->]|[[-> ->]|[[-> ->]|[[-> ->]|[[-> ->]|[-> ->]]]]]].
  - apply puts_total.
  - apply len_total.
  - apply first_total.
  - apply last_total.
  - apply rest_total.
  - apply push_total.
Qed.

(** The calls of the builtins that panic are exactly these: a call of
    [len], [first], [last], [rest] or [push] with the number of arguments
    it asks for and nil as the first of them, and a call of [puts] with an
    argument that holds nil. Every such panic is the call of a method on
    nil; every other call returns. *)
Theorem builtins_panic_exactly_on_nil :
  forall (Sprintf_v : Object -> string) (name : string)
         (fn : BuiltInFunction) (args : list Object) (out : list string),
    builtins Sprintf_v !! name = Some fn ->
    ((exists why out', fn args out = (Panics why, out')) <->
     (name = "puts" /\ Exists (fun a => defined a = false) args) \/
     (name ≠ "puts" /\ wants name = Some (len args) /\
      head args = Some nil_Object)) /\
    ((exists o out', fn args out = (Returns o, out')) <->
     ~ exists why out', fn args out = (Panics why, out')) /\
    (forall why out', fn args out = (Panics why, out') ->
                      why = NilDereference).
Proof.
  intros Sprintf_v name fn args out H.
  split; [|split].
  - apply builtins_lookup in H
      as [[-> ->]|[[-> ->]|[[-> ->]|[[-> ->]|[[-> ->]|[-> ->]]]]]].
    + rewrite puts_panics_iff. split; [by left | intros [[_ ?]|[? _]]; done].
    + rewrite len_panics_iff. split.
      * intros [-> ?]. by right.
      * intros [[? _]|(_ & [= ->] & ?)]; done.
    + rewrite first_panics_iff. split.
      * intros [-> ?]. by right.
      * intros [[? _]|(_ & [= ->] & ?)]; done.
    + rewrite last_panics_iff. split.
      * intros [-> ?]. by right.
      * intros [[? _]|(_ & [= ->] & ?)]; done.
    + rewrite rest_panics_iff. split.
      * intros [-> ?]. by right.
      * intros [[? _]|(_ & [= ->] & ?)]; done.
    + rewrite push_panics_iff. split.
      * intros [-> ?]. by right.
      * intros [[? _]|(_ & [= ->] & ?)]; done.
  - destruct (fn args out) as [[o|why] out']; split.
    + intros _ (w & o' & Hp). discriminate Hp.
    + intros _. eauto.
    + intros (o & o' & Hr). discriminate Hr.
    + intros Hn. destruct Hn. eauto.
  - by eapply builtins_panic_cause.
Qed.

Lemma builtins_panic_exactly_on_nil_witness :
  builtins (fun _ => "<nil>") !! "len" = Some builtin_len /\
  ((exists why out',
      builtin_len [Array [nil_Object]] [] = (Panics why, out')) <->
   ("len" = "puts" /\
    Exists (fun a => defined a = false) [Array [nil_Object]]) \/
   ("len" ≠ "puts" /\ wants "len" = Some (len [Array [nil_Object]]) /\
    head [Array [nil_Object]] = Some nil_Object)) /\
  builtin_len [Array [nil_Object]] [] = (Returns (Integer 1), []).
Proof.
  assert (H : builtins (fun _ => "<nil>") !! "len" = Some builtin_len)
    by reflexivity.
  split; [exact H|]. split.
  - exact (proj1 (builtins_panic_exactly_on_nil (fun _ => "<nil>") "len"
                    builtin_len [Array [nil_Object]] [] H)).
  - reflexivity.
Defined.
